(** * Address book: record store, identifier allocation, search, batching,
      persistence and birthday arithmetic of [ProjectGrupy3AddressBook.py].

    The development is a shallow embedding of the Python module.

    - Python [int] is [Z]; list indices and the iterator offset are [nat].
    - Python [str] is Rocq's [string].  The embedding is exact on ASCII
      text, where [str.lower] maps [A-Z] to [a-z], [\d] matches [0-9] and
      [str.strip] removes the ASCII whitespace.  Python's [str.lower],
      [\d] and [str.strip] also act on characters outside ASCII, which
      the embedding does not decode: the statements that say which
      strings they accept or match are made for strings that satisfy
      [is_ascii] ([str.isascii]).
    - [Field] objects ([Name], [Phone], [Email], [Birthday]) are never
      mutated after construction, so an object is represented by its
      identity [oid] together with its [value].  No class of the module
      defines [__eq__], hence Python's [==] on them is object identity.
    - [Record] objects are mutated by the store ([record.id] is written by
      [add_record]) and may be referenced from several places, so they live
      in an explicit heap indexed by object identity [loc]; the store's
      dict holds references.
    - [AddressBook.data] is a Python dict: an association list in insertion
      order with unique keys.  [free_ids] is a Python set: a [gset Z]. *)

From Stdlib Require Import ZArith Lia Ascii String.
From stdpp Require Import base option list gmap sets strings.

Local Open Scope Z_scope.

(** ** Data model *)

(** [class Field]: [self.value = value]; [oid] is the object's identity. *)
Record Field := mkField { oid : nat; value : string }.

Definition Name := Field.
Definition Phone := Field.
Definition Email := Field.
Definition Birthday := Field.

(** [class Address(Field)]. *)
Record Address := mkAddress {
  street : string; city : string; postal_code : string; country : string;
  address_value : string
}.

(** [class Tag] and [class Note]. *)
Record Tag := mkTag { tag_name : string }.
Record Note := mkNote { title : string; content : string; tags : list Tag }.

(** [class Record]; [rec_id = None] is Python's [self.id = None]. *)
Record RecordObj := mkRecord {
  rec_id : option Z;
  rec_name : Name;
  rec_phones : list Phone;
  rec_emails : list Email;
  rec_birthday : option Birthday;
  rec_address : option Address;
  rec_notes : list Note
}.

(** Object identity of a [Record] and the heap of [Record] objects. *)
Definition loc := nat.
Definition heap := loc -> RecordObj.

(** [record.id = v] on the object at [l]. *)
Definition set_id (l : loc) (v : Z) (h : heap) : heap :=
  fun l' =>
    if decide (l' = l) then
      let r := h l in
      mkRecord (Some v) (rec_name r) (rec_phones r) (rec_emails r)
               (rec_birthday r) (rec_address r) (rec_notes r)
    else h l'.

(** ** The dict [AddressBook.data] *)

Definition dict := list (Z * loc).

Definition keys (d : dict) : list Z := d.*1.
Definition values (d : dict) : list loc := d.*2.

(** [k in d] *)
Definition dict_mem (k : Z) (d : dict) : bool := bool_decide (k ∈ keys d).

(** [d[k] = v]: an existing key keeps its position, a new key goes last. *)
Fixpoint dict_set (d : dict) (k : Z) (v : loc) : dict :=
  match d with
  | [] => [(k, v)]
  | (k', v') :: d' =>
      if decide (k' = k) then (k, v) :: d' else (k', v') :: dict_set d' k v
  end.

(** [del d[k]] *)
Definition dict_del (d : dict) (k : Z) : dict :=
  filter (fun kv => kv.1 ≠ k) d.

(** ** [class AddressBook(UserDict)] *)

(** [current] is the attribute created by [__iter__]; it does not exist
    on a fresh object. *)
Record AddressBook := mkBook {
  data : dict;
  next_id : Z;
  free_ids : gset Z;
  current : option nat
}.

(** [AddressBook.__init__] *)
Definition new_book : AddressBook := mkBook [] 1 ∅ None.

(** The loop condition of [add_record]:
    [self.next_id in self.data or self.next_id in self.free_ids]. *)
Definition reserved (b : AddressBook) (n : Z) : bool :=
  dict_mem n (data b) || bool_decide (n ∈ free_ids b).

(** [while reserved(next_id): next_id += 1], run for at most [fuel]
    iterations.  Lemma [advance_exits] shows that with the fuel used by
    [add_record] the loop always reaches its exit, and
    [advance_more_fuel] that more fuel gives the same value. *)
Fixpoint advance (fuel : nat) (b : AddressBook) (n : Z) : Z :=
  match fuel with
  | O => n
  | S fuel' => if reserved b n then advance fuel' b (n + 1) else n
  end.

Definition advance_fuel (b : AddressBook) : nat :=
  (length (data b) + size (free_ids b))%nat.

Definition advanced_next_id (b : AddressBook) : Z :=
  advance (advance_fuel b) b (next_id b).

(** [min(s)] for a set of integers (only called on a non-empty set). *)
Definition set_min (s : gset Z) : Z :=
  match elements s with
  | [] => 0
  | x :: l => foldr Z.min x l
  end.

(** [AddressBook.add_record].  The first component of the result is the
    identifier written to [record.id] (and printed). *)
Definition add_record (b : AddressBook) (h : heap) (record : loc)
  : Z * AddressBook * heap :=
  let n := advanced_next_id b in
  if decide (free_ids b = ∅) then
    let rid := n in
    (rid, mkBook (dict_set (data b) rid record) (n + 1) (free_ids b) (current b),
     set_id record rid h)
  else
    let rid := set_min (free_ids b) in
    (rid, mkBook (dict_set (data b) rid record) n (free_ids b ∖ {[rid]}) (current b),
     set_id record rid h).

(** [AddressBook.delete_record_by_id].  [parsed] is the outcome of
    [int(record_id_str)] on the line typed by the user: [None] when it
    raises [ValueError]. *)
Definition delete_record_by_id (b : AddressBook) (parsed : option Z) : AddressBook :=
  match parsed with
  | None => b
  | Some record_id =>
      if dict_mem record_id (data b) then
        mkBook (dict_del (data b) record_id) (next_id b)
               ({[record_id]} ∪ free_ids b) (current b)
      else b
  end.

(** The loop's variant: how many values of [l] are at least [n]. *)
Definition count_ge (n : Z) (l : list Z) : nat :=
  length (filter (fun k => n ≤ k) l).

(** All values the loop skips: keys of [data] and members of [free_ids]. *)
Definition reserved_list (b : AddressBook) : list Z :=
  keys (data b) ++ elements (free_ids b).

(** [m] is the first value from [n] upwards that the loop does not skip. *)
Definition first_unreserved (b : AddressBook) (n m : Z) : Prop :=
  n ≤ m ∧ reserved b m = false ∧ ∀ k, n ≤ k < m → reserved b k = true.

(** [m] is the minimum of the set [s]. *)
Definition is_min (m : Z) (s : gset Z) : Prop :=
  m ∈ s ∧ ∀ y, y ∈ s → m ≤ y.

(** ** Histories of store operations *)

Inductive op :=
| Insert (record : loc)
| Delete (parsed : option Z).

Definition state := (AddressBook * heap)%type.

Definition run_op (s : state) (o : op) : state :=
  match o with
  | Insert l => let '(_, b', h') := add_record s.1 s.2 l in (b', h')
  | Delete p => (delete_record_by_id s.1 p, s.2)
  end.

Definition run (s : state) (ops : list op) : state := foldl run_op s ops.

(** A state of the store obtained from a fresh [AddressBook()] by inserts
    and deletes. *)
Definition reachable (s : state) : Prop :=
  ∃ h ops, s = run (new_book, h) ops.

(** Every [Insert] of the history is given a [Record] object that is not
    stored in the book at that moment. *)
Fixpoint distinct_inserts (s : state) (ops : list op) : Prop :=
  match ops with
  | [] => True
  | o :: ops' =>
      match o with
      | Insert l => l ∉ values (data s.1)
      | Delete _ => True
      end ∧ distinct_inserts (run_op s o) ops'
  end.

(** ** Store invariants *)

(** Every key of [data] is the [id] of the record stored under it. *)
Definition key_is_id (s : state) : Prop :=
  ∀ k l, (k, l) ∈ data s.1 → rec_id (s.2 l) = Some k.

(** [free_ids] and the keys of [data] are disjoint. *)
Definition free_disjoint (b : AddressBook) : Prop :=
  ∀ k, k ∈ keys (data b) → k ∉ free_ids b.

(** The identifiers in use or released are exactly [1 .. next_id - 1]. *)
Definition dense (b : AddressBook) : Prop :=
  1 ≤ next_id b ∧ ∀ k, reserved b k = true ↔ 1 ≤ k < next_id b.

(** ** Persistence *)

(** What [address_book.pkl] can hold: nothing (no file), bytes that do
    not unpickle, or the pickled [book.data], i.e. the dict together with
    the [Record] objects it references. *)
Inductive file :=
| NoFile
| Unreadable
| Pickle (d : dict) (objects : heap).

(** [save_address_book]: [pickle.dump(book.data, file)].  [io_ok = false]
    is the branch where [open] or [dump] raises; the exception is caught
    and reported, and nothing is known about the file. *)
Definition save_address_book (io_ok : bool) (b : AddressBook) (h : heap)
  : option file :=
  if io_ok then Some (Pickle (data b) h) else None.

(** [load_address_book]: a fresh [AddressBook()] whose [data] is replaced
    by the unpickled dict; a fresh empty book when the file is missing or
    unreadable.  [h] is the heap of the loading process; after a
    successful load the [Record] objects are the unpickled ones. *)
Definition load_address_book (f : file) (h : heap) : state :=
  match f with
  | Pickle d objects =>
      (mkBook d (next_id new_book) (free_ids new_book) (current new_book),
       objects)
  | NoFile => (new_book, h)
  | Unreadable => (new_book, h)
  end.

(** ** Strings: [str.lower] and the substring test [in] *)

(** [s.isascii()]: every character is below U+0080. *)
Fixpoint is_ascii (s : string) : bool :=
  match s with
  | EmptyString => true
  | String c s' => (nat_of_ascii c <? 128)%nat && is_ascii s'
  end.

(** [str.lower] on ASCII text. *)
Definition lower_char (c : ascii) : ascii :=
  let n := nat_of_ascii c in
  if ((65 <=? n) && (n <=? 90))%nat then ascii_of_nat (n + 32) else c.

Fixpoint lower (s : string) : string :=
  match s with
  | EmptyString => EmptyString
  | String c s' => String (lower_char c) (lower s')
  end.

(** [sub in s] *)
Fixpoint str_in (sub s : string) : bool :=
  String.prefix sub s ||
  match s with
  | EmptyString => false
  | String _ s' => str_in sub s'
  end.

(** ** [AddressBook.find_record] *)

(** [for f in fields: if search_term in f.value: found.append(record); break] *)
Fixpoint scan_fields (search_term : string) (fields : list Field)
    (record : loc) (found : list loc) : list loc :=
  match fields with
  | [] => found
  | f :: rest =>
      if str_in search_term (value f) then found ++ [record]
      else scan_fields search_term rest record found
  end.

(** The body of the outer loop, for one record. *)
Definition find_step (search_term : string) (h : heap) (found : list loc)
    (record : loc) : list loc :=
  let r := h record in
  if str_in (lower search_term) (lower (value (rec_name r))) then
    found ++ [record]                                   (* append; continue *)
  else
    let found := scan_fields search_term (rec_phones r) record found in
    scan_fields search_term (rec_emails r) record found.

Definition find_record (b : AddressBook) (h : heap) (search_term : string)
  : list loc :=
  foldl (find_step search_term h) [] (values (data b)).

(** The three ways a record can match, as the loop tests them. *)
Definition name_matches (term : string) (r : RecordObj) : bool :=
  str_in (lower term) (lower (value (rec_name r))).
Definition phone_matches (term : string) (r : RecordObj) : bool :=
  existsb (fun p => str_in term (value p)) (rec_phones r).
Definition email_matches (term : string) (r : RecordObj) : bool :=
  existsb (fun e => str_in term (value e)) (rec_emails r).
Definition record_matches (term : string) (r : RecordObj) : bool :=
  name_matches term r || phone_matches term r || email_matches term r.

(** ** Batched iteration: [__iter__] and [__next__] *)

Inductive next_result :=
| Batch (records : list loc)
| StopIteration
| AttributeError.

(** [__iter__]: [self.current = 0; return self] *)
Definition iter_ (b : AddressBook) : AddressBook :=
  mkBook (data b) (next_id b) (free_ids b) (Some 0%nat).

(** [__next__] *)
Definition next_ (b : AddressBook) : next_result * AddressBook :=
  match current b with
  | None => (AttributeError, b)
  | Some c =>
      if (c <? length (data b))%nat then
        (Batch (take 5 (drop c (values (data b)))),
         mkBook (data b) (next_id b) (free_ids b) (Some (c + 5)%nat))
      else (StopIteration, b)
  end.

(** [for batch in it: batches.append(batch)], with at most [fuel] calls
    of [__next__]; [None] when the fuel runs out before [StopIteration]
    or when [__next__] raises something else. *)
Fixpoint drain (fuel : nat) (it : AddressBook) : option (list (list loc)) :=
  match fuel with
  | O => None
  | S fuel' =>
      match next_ it with
      | (Batch records, it') => (fun bs => records :: bs) <$> drain fuel' it'
      | (StopIteration, _) => Some []
      | (AttributeError, _) => None
      end
  end.

(** [list(book)]: a fresh traversal, [iter(book)] followed by the loop. *)
Definition iterate_batches (b : AddressBook) : option (list (list loc)) :=
  drain (S (length (data b))) (iter_ b).

(** ** [Record.remove_phone] and [Record.edit_phone] *)

Inductive outcome := Returned | RaisedValueError.

(** [x == y] on [Field] objects: the default [object.__eq__], identity. *)
Definition py_eq (x y : Field) : bool := bool_decide (oid x = oid y).

(** [l.remove(x)]: drops the first item equal to [x]; [None] is the
    [ValueError] raised when there is none (the list is then untouched). *)
Fixpoint list_remove (x : Field) (l : list Field) : option (list Field) :=
  match l with
  | [] => None
  | y :: l' =>
      if py_eq y x then Some l' else (fun t => y :: t) <$> list_remove x l'
  end.

Definition with_phones (r : RecordObj) (ps : list Phone) : RecordObj :=
  mkRecord (rec_id r) (rec_name r) ps (rec_emails r)
           (rec_birthday r) (rec_address r) (rec_notes r).

Definition add_phone (r : RecordObj) (phone : Phone) : RecordObj :=
  with_phones r (rec_phones r ++ [phone]).

Definition remove_phone (r : RecordObj) (phone : Phone) : outcome * RecordObj :=
  match list_remove phone (rec_phones r) with
  | Some ps => (Returned, with_phones r ps)
  | None => (RaisedValueError, r)
  end.

Definition edit_phone (r : RecordObj) (old_phone new_phone : Phone)
  : outcome * RecordObj :=
  match remove_phone r old_phone with
  | (Returned, r') => (Returned, add_phone r' new_phone)
  | (RaisedValueError, r') => (RaisedValueError, r')
  end.

(** ** Calendar arithmetic of Python's [datetime] *)

Record datetime := mkDT {
  year : Z; month : Z; day : Z;
  hour : Z; minute : Z; second : Z; microsecond : Z
}.

Definition is_leap (y : Z) : bool :=
  (y mod 4 =? 0) && (negb (y mod 100 =? 0) || (y mod 400 =? 0)).

Definition days_in_month (y m : Z) : Z :=
  if m =? 2 then (if is_leap y then 29 else 28)
  else if (m =? 4) || (m =? 6) || (m =? 9) || (m =? 11) then 30
  else 31.

(** The constructor's range checks: [MINYEAR = 1], [MAXYEAR = 9999]. *)
Definition valid_date (y m d : Z) : bool :=
  (1 <=? y) && (y <=? 9999) && (1 <=? m) && (m <=? 12) &&
  (1 <=? d) && (d <=? days_in_month y m).

Definition days_before_year (y : Z) : Z :=
  let y' := y - 1 in y' * 365 + y' / 4 - y' / 100 + y' / 400.

Definition days_before_month (y m : Z) : Z :=
  nth (Z.to_nat m) [-1; 0; 31; 59; 90; 120; 151; 181; 212; 243; 273; 304; 334] 0
  + (if (2 <? m) && is_leap y then 1 else 0).

(** [date.toordinal()] *)
Definition toordinal (dt : datetime) : Z :=
  days_before_year (year dt) + days_before_month (year dt) (month dt) + day dt.

(** [dt.replace(year=y)]: [None] is the [ValueError] of the constructor
    (day out of range for the month, or year out of range). *)
Definition replace_year (dt : datetime) (y : Z) : option datetime :=
  if valid_date y (month dt) (day dt) then
    Some (mkDT y (month dt) (day dt) (hour dt) (minute dt) (second dt)
               (microsecond dt))
  else None.

(** [a > b] on datetimes: lexicographic on the seven fields. *)
Fixpoint lex_gt (a b : list Z) : bool :=
  match a, b with
  | x :: a', y :: b' => (y <? x) || ((x =? y) && lex_gt a' b')
  | _, _ => false
  end.

Definition dt_fields (dt : datetime) : list Z :=
  [year dt; month dt; day dt; hour dt; minute dt; second dt; microsecond dt].

Definition dt_gt (a b : datetime) : bool := lex_gt (dt_fields a) (dt_fields b).

(** [(a - b).days]: the difference is a [timedelta] normalised so that
    seconds and microseconds are non-negative, i.e. the floor of the
    difference in days. *)
Definition sub_days (a b : datetime) : Z :=
  let days := toordinal a - toordinal b in
  let secs := (second a + minute a * 60 + hour a * 3600)
              - (second b + minute b * 60 + hour b * 3600) in
  let us := microsecond a - microsecond b in
  ((days * 86400 + secs) * 1000000 + us) / (86400 * 1000000).

(** ** [datetime.strptime(value, "%Y-%m-%d")]

    The format compiles to the regular expression
    [(?P<Y>\d\d\d\d)-(?P<m>1[0-2]|0[1-9]|[1-9])-(?P<d>3[0-1]|[1-2]\d|0[1-9]|[1-9]| [1-9])],
    matched at the start of the string; the whole string must be consumed
    and the three numbers must form a date.  A piece of the expression is
    a function from the input to the list of its matches in backtracking
    order, each with the remaining input.

    On ASCII text [\d] is the class [0-9].  In a [str] pattern it also
    matches the other Unicode decimal digits, so the functions below give
    the result of the call for the strings that satisfy [is_ascii]. *)

Definition digit (c : ascii) : option Z :=
  let n := Z.of_nat (nat_of_ascii c) in
  if (48 <=? n) && (n <=? 57) then Some (n - 48) else None.

(** Two digits [x y] allowed by [p]; the match is the number [10x + y]. *)
Definition re_2 (p : Z -> Z -> bool) (s : string) : list (Z * string) :=
  match s with
  | String a (String b rest) =>
      match digit a, digit b with
      | Some x, Some y => if p x y then [(10 * x + y, rest)] else []
      | _, _ => []
      end
  | _ => []
  end.

(** [[1-9]] *)
Definition re_1 (s : string) : list (Z * string) :=
  match s with
  | String a rest =>
      match digit a with
      | Some x => if 1 <=? x then [(x, rest)] else []
      | None => []
      end
  | _ => []
  end.

(** A literal character. *)
Definition re_lit (c : ascii) (s : string) : list string :=
  match s with
  | String a rest => if Ascii.eqb a c then [rest] else []
  | _ => []
  end.

(** [\d\d\d\d] *)
Definition re_Y (s : string) : list (Z * string) :=
  match s with
  | String a (String b (String c (String d rest))) =>
      match digit a, digit b, digit c, digit d with
      | Some x, Some y, Some z, Some w =>
          [(1000 * x + 100 * y + 10 * z + w, rest)]
      | _, _, _, _ => []
      end
  | _ => []
  end.

(** [1[0-2]|0[1-9]|[1-9]] *)
Definition re_m (s : string) : list (Z * string) :=
  re_2 (fun x y => (x =? 1) && (y <=? 2)) s
  ++ re_2 (fun x y => (x =? 0) && (1 <=? y)) s
  ++ re_1 s.

(** [3[0-1]|[1-2]\d|0[1-9]|[1-9]| [1-9]] *)
Definition re_d (s : string) : list (Z * string) :=
  re_2 (fun x y => (x =? 3) && (y <=? 1)) s
  ++ re_2 (fun x y => (1 <=? x) && (x <=? 2)) s
  ++ re_2 (fun x y => (x =? 0) && (1 <=? y)) s
  ++ re_1 s
  ++ (rest ← re_lit " " s; re_1 rest).

(** Matches of [(?P<m>...)-(?P<d>...)]: month, day, remaining input. *)
Definition md_matches (s : string) : list (Z * Z * string) :=
  mr ← re_m s;
  r2 ← re_lit "-" mr.2;
  dr ← re_d r2;
  [(mr.1, dr.1, dr.2)].

(** All matches of the whole expression, first match first. *)
Definition format_matches (s : string) : list (Z * Z * Z * string) :=
  yr ← re_Y s;
  r1 ← re_lit "-" yr.2;
  md ← md_matches r1;
  [(yr.1, md.1.1, md.1.2, md.2)].

(** [None] is [ValueError]: no match, unconverted data, or not a date. *)
Definition strptime (s : string) : option datetime :=
  match head (format_matches s) with
  | None => None
  | Some (y, m, d, rest) =>
      if negb (String.eqb rest "") then None
      else if valid_date y m d then Some (mkDT y m d 0 0 0 0)
      else None
  end.

(** [Birthday.validate_birthday] *)
Definition validate_birthday (s : string) : bool :=
  match strptime s with
  | Some _ => true
  | None => false
  end.

(** [Birthday(value)]; [None] is the [ValueError] of the constructor. *)
Definition new_Birthday (o : nat) (s : string) : option Birthday :=
  if validate_birthday s then Some (mkField o s) else None.

(** ** [Record.days_to_birthday] *)

Inductive days_result :=
| NoBirthdaySet
| Days (n : Z)
| DaysValueError.

(** [today] is the value of [datetime.now()]. *)
Definition days_to_birthday (r : RecordObj) (today : datetime) : days_result :=
  match rec_birthday r with
  | None => NoBirthdaySet
  | Some bd =>
      if String.eqb (value bd) "" then NoBirthdaySet
      else
        match strptime (value bd) with
        | None => DaysValueError
        | Some bday =>
            match replace_year bday (year today) with
            | None => DaysValueError
            | Some next_birthday =>
                if dt_gt today next_birthday then
                  match replace_year next_birthday (year today + 1) with
                  | None => DaysValueError
                  | Some next_birthday' => Days (sub_days next_birthday' today)
                  end
                else Days (sub_days next_birthday today)
            end
        end
  end.

(** ** The accepted spellings of a date, and the spec's reading *)

Definition digit_char (n : Z) : ascii := ascii_of_nat (Z.to_nat (48 + n)).

(** Decimal numeral of [0 <= n < 100] without padding. *)
Definition dec (n : Z) : string :=
  if n <? 10 then String (digit_char n) EmptyString
  else String (digit_char (n / 10)) (String (digit_char (n mod 10)) EmptyString).

Definition pad2 (n : Z) : string :=
  String (digit_char (n / 10)) (String (digit_char (n mod 10)) EmptyString).

Definition pad4 (n : Z) : string :=
  String (digit_char (n / 1000)) (String (digit_char (n / 100 mod 10))
    (String (digit_char (n / 10 mod 10)) (String (digit_char (n mod 10)) EmptyString))).

(** Month numerals the expression accepts: with or without leading zero. *)
Definition month_texts (m : Z) : list string :=
  if m <? 10 then [dec m; pad2 m] else [dec m].

(** Day numerals: with or without leading zero, or with a leading space. *)
Definition day_texts (d : Z) : list string :=
  if d <? 10 then [dec d; pad2 d; String " " (dec d)] else [dec d].

Definition spellings (y m d : Z) : list string :=
  ms ← month_texts m; ds ← day_texts d;
  [pad4 y +:+ "-" +:+ ms +:+ "-" +:+ ds].

(** The spec's form: [YYYY-MM-DD], zero padded. *)
Definition iso_text (y m d : Z) : string :=
  pad4 y +:+ "-" +:+ pad2 m +:+ "-" +:+ pad2 d.

(** The specification's statement on birthdays: exactly the zero-padded strings
    [YYYY-MM-DD] that denote a real date are accepted. *)
Definition validate_birthday_as_stated (s : string) : Prop :=
  validate_birthday s = true ↔
  ∃ y m d, valid_date y m d = true ∧ s = iso_text y m d.

(** The spec's reading of [daysToNextBirthday]: the time of day of [now]
    is dropped before the next occurrence is chosen and the days are
    counted.  [None] when a date cannot be formed. *)
Definition date_only (dt : datetime) : datetime :=
  mkDT (year dt) (month dt) (day dt) 0 0 0 0.

Definition spec_days_to_next_birthday (bday now : datetime) : option Z :=
  match replace_year bday (year now) with
  | None => None
  | Some occurrence =>
      if dt_gt (date_only now) occurrence then
        match replace_year bday (year now + 1) with
        | None => None
        | Some occurrence' => Some (toordinal occurrence' - toordinal now)
        end
      else Some (toordinal occurrence - toordinal now)
  end.

(** Records and instants used in the examples. *)
Definition born (s : string) : RecordObj :=
  mkRecord (Some 1) (mkField 30 "Dana") [] [] (Some (mkField 31 s)) None [].

Definition june_15_at_10 : datetime := mkDT 2024 6 15 10 0 0 0.
Definition june_14_at_10 : datetime := mkDT 2024 6 14 10 0 0 0.
Definition new_year_2023 : datetime := mkDT 2023 1 1 0 0 0 0.

(** ** Finite checks used by the proofs about [strptime] *)

(** Every accepted spelling of month [m] and day [d] is matched whole,
    with these numbers, by the first match. *)
Definition md_check (m d : Z) : bool :=
  forallb (fun ms =>
    forallb (fun ds =>
      bool_decide (head (md_matches (ms +:+ "-" +:+ ds)) = Some (m, d, "")))
      (day_texts d))
    (month_texts m).

Definition in_range (m d : Z) : bool :=
  (1 <=? m) && (m <=? 12) && (1 <=? d) && (d <=? 31).

(** On two-digit numerals [MM-DD] the first match consumes the input
    exactly when month and day are in range, and then yields them. *)
Definition md_iso_check (m d : Z) : bool :=
  match head (md_matches (pad2 m +:+ "-" +:+ pad2 d)) with
  | Some (m', d', rest) =>
      if String.eqb rest "" then (m' =? m) && (d' =? d) && in_range m d
      else negb (in_range m d)
  | None => negb (in_range m d)
  end.
Definition march_1_2024 : datetime := mkDT 2024 3 1 0 0 0 0.

(** ** Concrete stores used in examples *)

Definition contact (o : nat) (nm : string) : RecordObj :=
  mkRecord None (mkField o nm) [] [] None None [].

(** A heap of unsaved contacts, all named Bob. *)
Definition bobs : heap := fun l => contact l "Bob".

(** Two inserts, then the first record is deleted. *)
Definition two_minus_first : state :=
  run (new_book, bobs) [Insert 1%nat; Insert 2%nat; Delete (Some 1)].

(** The same store after [save_address_book] and [load_address_book]. *)
Definition reloaded : state :=
  load_address_book (Pickle (data two_minus_first.1) two_minus_first.2) bobs.

(** ** The specification's statements, as worded *)

(** Allocation rule of the spec: the smallest released id if there is
    one; otherwise [next_id], which is then moved past every reserved
    value, so that it ends on a value reserved by neither set. *)
Definition insert_rule_as_stated (b : AddressBook) (h : heap) (l : loc) : Prop :=
  let r := add_record b h l in
  let rid := r.1.1 in
  let b' := r.1.2 in
  (free_ids b ≠ ∅ → is_min rid (free_ids b) ∧ free_ids b' = free_ids b ∖ {[rid]})
  ∧ (free_ids b = ∅ → rid = next_id b ∧ reserved b' (next_id b') = false).

(** Equivalence of two stores as the round-trip property words it: same
    ids with the same records, same [free_ids], same [next_id]. *)
Definition same_store (s1 s2 : state) : Prop :=
  data s1.1 = data s2.1
  ∧ (∀ k l, (k, l) ∈ data s1.1 → s1.2 l = s2.2 l)
  ∧ free_ids s1.1 = free_ids s2.1
  ∧ next_id s1.1 = next_id s2.1.

Definition roundtrip_as_stated (s : state) : Prop :=
  ∀ f h', save_address_book true s.1 s.2 = Some f →
          same_store s (load_address_book f h').

(** Both store invariants of the data model. *)
Definition store_invariant (s : state) : Prop :=
  key_is_id s ∧ free_disjoint s.1.

(** Presence of a phone "by value": some phone of the list carries the
    same validated string. *)
Definition present_by_value (phone : Phone) (ps : list Phone) : Prop :=
  ∃ p, p ∈ ps ∧ value p = value phone.

(** Presence as Python's [list.remove] tests it: the same object. *)
Definition present_by_identity (phone : Phone) (ps : list Phone) : Prop :=
  ∃ p, p ∈ ps ∧ oid p = oid phone.

(** The spec's statement on phones: removal and replacement fail exactly
    when no phone with the same validated string is present, and a failed
    replacement leaves the record as it was. *)
Definition phone_ops_as_stated (r : RecordObj) (old_phone new_phone : Phone) : Prop :=
  ((remove_phone r old_phone).1 = RaisedValueError ↔
     ¬ present_by_value old_phone (rec_phones r))
  ∧ ((edit_phone r old_phone new_phone).1 = RaisedValueError ↔
     ¬ present_by_value old_phone (rec_phones r))
  ∧ ((edit_phone r old_phone new_phone).1 = RaisedValueError →
     (edit_phone r old_phone new_phone).2 = r).

(** A contact with one phone, and a second [Phone] object built from the
    same string. *)
Definition carol : RecordObj :=
  mkRecord (Some 1) (mkField 10 "Carol") [mkField 11 "123456789"] []
           None None [].
Definition same_number : Phone := mkField 12 "123456789".
Definition other_number : Phone := mkField 13 "987654321".

(** A store with one record that matches a search term both by a phone
    and by an email, but not by name. *)
Definition bob_1 : RecordObj :=
  mkRecord None (mkField 20 "Bob") [mkField 21 "123456789"]
           [mkField 22 "bob1@x.com"] None None [].
Definition bob_store : state := run (new_book, fun _ => bob_1) [Insert 1%nat].

From stdpp Require pretty.

(** ** [Phone.validate_phone] and [Email.validate_email]

    Both use [pattern.match(value) is not None]: some way of matching the
    expression at the start of the string succeeds.  As for [strptime], a
    piece of an expression maps the input to its matches in backtracking
    order, each given by the remaining input.  The classes of the email
    pattern are explicit ASCII ranges; [\d] of the phone pattern is [0-9]
    on ASCII text and also matches the other Unicode decimal digits, so
    [validate_phone] gives the result of the method for the strings that
    satisfy [is_ascii]. *)

Definition newline : ascii := "010"%char.

(** Every character of [s] satisfies [p]. *)
Fixpoint all_chars (p : ascii -> bool) (s : string) : bool :=
  match s with
  | EmptyString => true
  | String a rest => p a && all_chars p rest
  end.

Definition is_digit (c : ascii) : bool :=
  match digit c with
  | Some _ => true
  | None => false
  end.

(** [\d{n}] *)
Fixpoint re_digits (n : nat) (s : string) : list string :=
  match n with
  | O => [s]
  | S n' =>
      match s with
      | String a rest => if is_digit a then re_digits n' rest else []
      | EmptyString => []
      end
  end.

(** [$]: the end of the string, or the position before a final newline. *)
Definition re_dollar (s : string) : bool :=
  String.eqb s "" || String.eqb s (String newline "").

(** [re.compile(r"^\d{9}$").match(value) is not None] *)
Definition validate_phone (v : string) : bool :=
  existsb re_dollar (re_digits 9 v).

(** [Phone(value)]; [None] is the [ValueError] of the constructor. *)
Definition new_Phone (o : nat) (v : string) : option Phone :=
  if validate_phone v then Some (mkField o v) else None.

(** [cls*], greedy: the longest match first. *)
Fixpoint re_star (cls : ascii -> bool) (s : string) : list string :=
  match s with
  | String a rest => if cls a then re_star cls rest ++ [s] else [s]
  | EmptyString => [s]
  end.

(** [cls+] *)
Definition re_plus (cls : ascii -> bool) (s : string) : list string :=
  match s with
  | String a rest => if cls a then re_star cls rest else []
  | EmptyString => []
  end.

Definition in_range_char (lo hi c : ascii) : bool :=
  ((nat_of_ascii lo <=? nat_of_ascii c) && (nat_of_ascii c <=? nat_of_ascii hi))%nat.

(** [a-zA-Z0-9] *)
Definition is_alnum (c : ascii) : bool :=
  in_range_char "a" "z" c || in_range_char "A" "Z" c || in_range_char "0" "9" c.

(** [[a-zA-Z0-9_.+-]] *)
Definition email_local_char (c : ascii) : bool :=
  is_alnum c || Ascii.eqb c "_" || Ascii.eqb c "." || Ascii.eqb c "+"
  || Ascii.eqb c "-".

(** [[a-zA-Z0-9-]] *)
Definition email_label_char (c : ascii) : bool :=
  is_alnum c || Ascii.eqb c "-".

(** [[a-zA-Z0-9-.]] *)
Definition email_tail_char (c : ascii) : bool :=
  is_alnum c || Ascii.eqb c "-" || Ascii.eqb c ".".

(** Matches of [^[a-zA-Z0-9_.+-]+@[a-zA-Z0-9-]+\.[a-zA-Z0-9-.]+$]. *)
Definition email_regex_matches (s : string) : list string :=
  r1 ← re_plus email_local_char s;
  r2 ← re_lit "@" r1;
  r3 ← re_plus email_label_char r2;
  r4 ← re_lit "." r3;
  r5 ← re_plus email_tail_char r4;
  if re_dollar r5 then [r5] else [].

Definition validate_email (v : string) : bool :=
  match email_regex_matches v with
  | [] => false
  | _ :: _ => true
  end.

(** [Email(value)] *)
Definition new_Email (o : nat) (v : string) : option Email :=
  if validate_email v then Some (mkField o v) else None.

(** ** Remaining [Record] methods *)

Definition with_emails (r : RecordObj) (es : list Email) : RecordObj :=
  mkRecord (rec_id r) (rec_name r) (rec_phones r) es
           (rec_birthday r) (rec_address r) (rec_notes r).

Definition add_email (r : RecordObj) (email : Email) : RecordObj :=
  with_emails r (rec_emails r ++ [email]).

Definition remove_email (r : RecordObj) (email : Email) : outcome * RecordObj :=
  match list_remove email (rec_emails r) with
  | Some es => (Returned, with_emails r es)
  | None => (RaisedValueError, r)
  end.

Definition edit_email (r : RecordObj) (old_email new_email : Email)
  : outcome * RecordObj :=
  match remove_email r old_email with
  | (Returned, r') => (Returned, add_email r' new_email)
  | (RaisedValueError, r') => (RaisedValueError, r')
  end.

(** [Address(street, city, postal_code, country)] *)
Definition new_Address (st ci pc co : string) : Address :=
  mkAddress st ci pc co (st +:+ ", " +:+ ci +:+ ", " +:+ pc +:+ ", " +:+ co).

Definition add_address (r : RecordObj) (a : Address) : RecordObj :=
  mkRecord (rec_id r) (rec_name r) (rec_phones r) (rec_emails r)
           (rec_birthday r) (Some a) (rec_notes r).

(** ** Rendering: [Note.__str__], [Record.__str__], [show_all_records] *)

(** [sep.join(l)] *)
Fixpoint join (sep : string) (l : list string) : string :=
  match l with
  | [] => ""
  | [x] => x
  | x :: rest => x +:+ sep +:+ join sep rest
  end.

Definition note_str (n : Note) : string :=
  "Title: " +:+ title n +:+ ", Content: " +:+ content n +:+ ", Tags: "
  +:+ join ", " (tag_name <$> tags n).

(** [str(x)] for an [id], which is an [int] or [None]. *)
Definition id_str (i : option Z) : string :=
  match i with
  | Some k => pretty.pretty k
  | None => "None"
  end.

(** [Record.__str__], evaluated when [datetime.now()] is [today]; [None]
    when [days_to_birthday] raises. *)
Definition record_str (r : RecordObj) (today : datetime) : option string :=
  let phones := join ", " (value <$> rec_phones r) in
  let emails := join ", " (value <$> rec_emails r) in
  let birthday_str :=
    match rec_birthday r with
    | Some bd => ", Birthday: " +:+ value bd
    | None => ""
    end in
  let days_to_bday_str :=
    match rec_birthday r with
    | Some _ =>
        match days_to_birthday r today with
        | Days n => Some (", Days to birthday: " +:+ pretty.pretty n)
        | NoBirthdaySet => Some ", Days to birthday: No birthday set"
        | DaysValueError => None
        end
    | None => Some ""
    end in
  let address_str :=
    match rec_address r with
    | Some a => String newline ("Address: " +:+ address_value a)
    | None => ""
    end in
  let notes_str := join (String newline "") (note_str <$> rec_notes r) in
  match days_to_bday_str with
  | None => None
  | Some days =>
      Some ("ID: " +:+ id_str (rec_id r) +:+ ", Name: " +:+ value (rec_name r)
            +:+ ", Phones: " +:+ phones +:+ ", Email: " +:+ emails
            +:+ birthday_str +:+ days +:+ address_str
            +:+ String newline ("Notes:" +:+ String newline notes_str))
  end.

(** The loop of [show_all_records]: the lines printed, and whether the
    loop ended or a [__str__] raised.  [now i] is the value of
    [datetime.now()] while the record at position [i] is rendered. *)
Fixpoint print_records (h : heap) (now : nat -> datetime) (i : nat)
    (ls : list loc) : list string * outcome :=
  match ls with
  | [] => ([], Returned)
  | l :: rest =>
      match record_str (h l) (now i) with
      | None => ([], RaisedValueError)
      | Some line =>
          let '(out, o) := print_records h now (S i) rest in
          (line :: out, o)
      end
  end.

Definition show_all_records (b : AddressBook) (h : heap) (now : nat -> datetime)
  : list string * outcome :=
  match data b with
  | [] => (["Address book is empty."], Returned)
  | _ :: _ => print_records h now 0 (values (data b))
  end.

(** ** [find_records_by_name] and [delete_record] *)

Definition find_records_by_name (b : AddressBook) (h : heap) (name : string)
  : list (Z * loc) :=
  foldl (fun matching kv =>
           if str_in (lower name) (lower (value (rec_name (h kv.2))))
           then matching ++ [kv] else matching)
        [] (data b).



(** Two characters that are equal or are the same ASCII letter in the two
    cases, and two strings that agree in this way character by
    character. *)
Definition is_letter (c : ascii) : bool :=
  let n := nat_of_ascii c in
  (((65 <=? n) && (n <=? 90)) || ((97 <=? n) && (n <=? 122)))%nat.

Definition same_letter (a b : ascii) : bool :=
  Ascii.eqb a b
  || (is_letter a && is_letter b
      && ((nat_of_ascii a + 32 =? nat_of_ascii b)
          || (nat_of_ascii b + 32 =? nat_of_ascii a)))%nat.

Fixpoint same_text (s t : string) : bool :=
  match s, t with
  | EmptyString, EmptyString => true
  | String a s', String b t' => same_letter a b && same_text s' t'
  | _, _ => false
  end.

(** [text] occurs in [s] when the case of ASCII letters is ignored. *)
Definition occurs_ignoring_case (text s : string) : Prop :=
  ∃ pre mid post, s = pre +:+ mid +:+ post ∧ same_text text mid = true.

(** How often [find_record] appends a record. *)
Definition hits (term : string) (r : RecordObj) : nat :=
  if name_matches term r then 1%nat
  else (Nat.b2n (phone_matches term r) + Nat.b2n (email_matches term r))%nat.

(** ** [class Notebook] *)

Record Notebook := mkNotebook { nb_notes : list Note; nb_tags : list Tag }.

(** [Notebook.__init__] *)
Definition new_notebook : Notebook := mkNotebook [] [].

(** [Notebook.delete_note]; [parsed] is the outcome of [int(note_id)]. *)
Definition delete_note (nb : Notebook) (parsed : option Z) : Notebook :=
  match parsed with
  | None => nb
  | Some note_id =>
      if (1 <=? note_id) && (note_id <=? Z.of_nat (length (nb_notes nb))) then
        mkNotebook (delete (Z.to_nat (note_id - 1)) (nb_notes nb)) (nb_tags nb)
      else nb
  end.

(** ** Instants accepted by [datetime] *)

Definition valid_datetime (dt : datetime) : Prop :=
  valid_date (year dt) (month dt) (day dt) = true
  ∧ 0 ≤ hour dt < 24 ∧ 0 ≤ minute dt < 60 ∧ 0 ≤ second dt < 60
  ∧ 0 ≤ microsecond dt < 1000000.

(** Microseconds since midnight. *)
Definition time_of_day (dt : datetime) : Z :=
  (second dt + minute dt * 60 + hour dt * 3600) * 1000000 + microsecond dt.

(** ** [create_record]

    The lines typed by the user are a list of strings, consumed by
    [input()]; running out of lines is [EOFError], the result [None].
    The messages written by [print(e)] are collected in [out].  New
    [Field] objects take their identities from the counter [o]. *)

(** The whitespace [str.strip()] removes from ASCII text: the characters
    U+0009 to U+000D and U+001C to U+0020.  ([str.strip] also removes the
    whitespace characters outside ASCII, which the embedding does not
    decode.) *)
Definition is_space (c : ascii) : bool :=
  let n := nat_of_ascii c in
  (((9 <=? n) && (n <=? 13)) || ((28 <=? n) && (n <=? 32)))%nat.

Fixpoint lstrip (s : string) : string :=
  match s with
  | String a rest => if is_space a then lstrip rest else s
  | EmptyString => EmptyString
  end.

Definition strip (s : string) : string :=
  String.rev (lstrip (String.rev (lstrip s))).

(** The birthday loop: repeats until an empty line or a valid date. *)
Fixpoint read_birthday (o : nat) (inputs out : list string)
  : option (option Birthday * list string * list string) :=
  match inputs with
  | [] => None
  | line :: rest =>
      if String.eqb line "" then Some (None, rest, out)
      else
        match new_Birthday o line with
        | Some bd => Some (Some bd, rest, out)
        | None => read_birthday o rest (out ++ ["Invalid birthday"])
        end
  end.

(** The phone loop: an empty line ends it, an invalid number is reported
    and skipped. *)
Fixpoint read_phones (o : nat) (inputs : list string) (r : RecordObj)
    (out : list string) : option (RecordObj * nat * list string * list string) :=
  match inputs with
  | [] => None
  | line :: rest =>
      if String.eqb line "" then Some (r, o, rest, out)
      else
        match new_Phone o line with
        | Some p => read_phones (S o) rest (add_phone r p) out
        | None => read_phones o rest r (out ++ ["Invalid phone number"])
        end
  end.

Fixpoint read_emails (o : nat) (inputs : list string) (r : RecordObj)
    (out : list string) : option (RecordObj * nat * list string * list string) :=
  match inputs with
  | [] => None
  | line :: rest =>
      if String.eqb line "" then Some (r, o, rest, out)
      else
        match new_Email o line with
        | Some e => read_emails (S o) rest (add_email r e) out
        | None => read_emails o rest r (out ++ ["Invalid email address"])
        end
  end.

(** [Record.add_note] *)
Definition add_note (r : RecordObj) (n : Note) : RecordObj :=
  mkRecord (rec_id r) (rec_name r) (rec_phones r) (rec_emails r)
           (rec_birthday r) (rec_address r) (rec_notes r ++ [n]).

(** The optional address: asked for when the answer is [y] after
    [lower().strip()]. *)
Definition read_address (inputs : list string) (r : RecordObj)
  : option (RecordObj * list string) :=
  match inputs with
  | [] => None
  | answer :: rest =>
      if String.eqb (strip (lower answer)) "y" then
        match rest with
        | st :: ci :: pc :: co :: rest' =>
            Some (add_address r (new_Address st ci pc co), rest')
        | _ => None
        end
      else Some (r, rest)
  end.

Definition read_note (inputs : list string) (r : RecordObj)
  : option (RecordObj * list string) :=
  match inputs with
  | [] => None
  | answer :: rest =>
      if String.eqb (strip (lower answer)) "y" then
        match rest with
        | note_title :: note_content :: rest' =>
            Some (add_note r (mkNote note_title note_content []), rest')
        | _ => None
        end
      else Some (r, rest)
  end.

(** [create_record]: the record, the next free identity, the lines left
    and the messages printed. *)
Definition create_record (o : nat) (inputs : list string)
  : option (RecordObj * nat * list string * list string) :=
  match inputs with
  | [] => None
  | name_input :: rest =>
      let name := mkField o name_input in
      '(birthday, rest, out) ← read_birthday (S o) rest [];
      let record := mkRecord None name [] [] birthday None [] in
      '(record, o', rest, out) ← read_phones (S (S o)) rest record out;
      '(record, o', rest, out) ← read_emails o' rest record out;
      '(record, rest) ← read_address rest record;
      '(record, rest) ← read_note rest record;
      Some (record, o', rest, out)
  end.

(** All field values of a record satisfy their validators. *)
Definition fields_valid (r : RecordObj) : Prop :=
  Forall (fun p => validate_phone (value p) = true) (rec_phones r)
  ∧ Forall (fun e => validate_email (value e) = true) (rec_emails r)
  ∧ (∀ bd, rec_birthday r = Some bd → validate_birthday (value bd) = true).

(** * Proofs *)

(** ** Facts about the dict operations *)

Section dict_facts.
Implicit Types (d : dict) (k : Z) (v : loc).

Lemma dict_mem_true k d : dict_mem k d = true ↔ k ∈ keys d.
Proof. unfold dict_mem. by rewrite bool_decide_eq_true. Qed.

Lemma dict_mem_false k d : dict_mem k d = false ↔ k ∉ keys d.
Proof. unfold dict_mem. by rewrite bool_decide_eq_false. Qed.

Lemma elem_of_keys k d : k ∈ keys d ↔ ∃ v, (k, v) ∈ d.
Proof.
  unfold keys. rewrite list_elem_of_fmap. split.
  - intros [[k' v] [-> H]]. by exists v.
  - intros [v H]. by exists (k, v).
Qed.

Lemma elem_of_values v d : v ∈ values d ↔ ∃ k, (k, v) ∈ d.
Proof.
  unfold values. rewrite list_elem_of_fmap. split.
  - intros [[k v'] [-> H]]. by exists k.
  - intros [k H]. by exists (k, v).
Qed.

(** Assigning a key that is absent appends the item. *)
Lemma dict_set_new d k v : k ∉ keys d → dict_set d k v = d ++ [(k, v)].
Proof.
  induction d as [|[k' v'] d IH]; simpl; [done|].
  rewrite not_elem_of_cons. intros [Hne Hd].
  rewrite decide_False by done. by rewrite IH.
Qed.

Lemma keys_dict_set d k v k' :
  k' ∈ keys (dict_set d k v) ↔ k' = k ∨ k' ∈ keys d.
Proof.
  induction d as [|[k0 v0] d IH]; simpl.
  - unfold keys; simpl. rewrite list_elem_of_singleton.
    split; [by left|]. intros [?|H]; [done|]. by apply elem_of_nil in H.
  - destruct (decide (k0 = k)) as [->|Hne]; unfold keys in *; simpl;
      rewrite !elem_of_cons; [tauto|]. rewrite IH. tauto.
Qed.

Lemma elem_of_dict_set_inv d k v kv :
  kv ∈ dict_set d k v → kv = (k, v) ∨ kv ∈ d.
Proof.
  induction d as [|[k0 v0] d IH]; simpl.
  - rewrite list_elem_of_singleton. by left.
  - destruct (decide (k0 = k)) as [->|Hne]; rewrite !elem_of_cons.
    + intros [->|H]; [by left|right; by right].
    + intros [->|H]; [right; by left|].
      destruct (IH H) as [->|?]; [by left|right; by right].
Qed.

Lemma elem_of_dict_del d k kv : kv ∈ dict_del d k ↔ kv.1 ≠ k ∧ kv ∈ d.
Proof. unfold dict_del. by rewrite list_elem_of_filter. Qed.

Lemma keys_dict_del d k k' :
  k' ∈ keys (dict_del d k) ↔ k' ≠ k ∧ k' ∈ keys d.
Proof.
  rewrite !elem_of_keys. split.
  - intros [v [H1 H2]%elem_of_dict_del]. split; [done|by exists v].
  - intros [Hne [v H]]. exists v. by apply elem_of_dict_del.
Qed.

End dict_facts.

(** ** The allocation loop terminates at the first unreserved value *)

Lemma count_ge_succ n l : (count_ge (n + 1) l ≤ count_ge n l)%nat.
Proof.
  unfold count_ge. induction l as [|x l IH]; [done|].
  rewrite !filter_cons.
  destruct (decide (n + 1 ≤ x)), (decide (n ≤ x)); simpl; lia.
Qed.

Lemma count_ge_elem n l : n ∈ l → (count_ge (n + 1) l < count_ge n l)%nat.
Proof.
  unfold count_ge. induction l as [|x l IH]; [by intros ?%elem_of_nil|].
  rewrite elem_of_cons, !filter_cons. intros [<-|H].
  - pose proof (count_ge_succ n l) as Hle. unfold count_ge in Hle.
    rewrite decide_False by lia. rewrite decide_True by lia. simpl. lia.
  - specialize (IH H).
    destruct (decide (n + 1 ≤ x)), (decide (n ≤ x)); simpl; lia.
Qed.

Lemma count_ge_fuel b n : (count_ge n (reserved_list b) ≤ advance_fuel b)%nat.
Proof.
  unfold count_ge. etrans; [apply length_filter|].
  unfold reserved_list, advance_fuel, keys.
  rewrite length_app, length_fmap. done.
Qed.

Lemma reserved_true b n :
  reserved b n = true ↔ n ∈ keys (data b) ∨ n ∈ free_ids b.
Proof.
  unfold reserved. rewrite orb_true_iff, dict_mem_true, bool_decide_eq_true.
  done.
Qed.

Lemma reserved_false b n :
  reserved b n = false ↔ (n ∉ keys (data b)) ∧ (n ∉ free_ids b).
Proof.
  unfold reserved. rewrite orb_false_iff, dict_mem_false, bool_decide_eq_false.
  done.
Qed.

Lemma reserved_elem b n : reserved b n = true ↔ n ∈ reserved_list b.
Proof.
  rewrite reserved_true. unfold reserved_list.
  by rewrite elem_of_app, elem_of_elements.
Qed.

Lemma first_unreserved_unique b n m1 m2 :
  first_unreserved b n m1 → first_unreserved b n m2 → m1 = m2.
Proof.
  intros (H1 & F1 & A1) (H2 & F2 & A2).
  destruct (Z.lt_trichotomy m1 m2) as [Hlt|[->|Hlt]]; [|done|].
  - rewrite (A2 m1) in F1 by lia. done.
  - rewrite (A1 m2) in F2 by lia. done.
Qed.

Lemma advance_first b fuel n :
  (count_ge n (reserved_list b) ≤ fuel)%nat →
  first_unreserved b n (advance fuel b n).
Proof.
  revert n. induction fuel as [|fuel IH]; intros n Hc; simpl.
  - split; [lia|]. split; [|intros k ?; lia].
    destruct (reserved b n) eqn:E; [|done].
    apply reserved_elem, count_ge_elem in E. lia.
  - destruct (reserved b n) eqn:E.
    + pose proof E as E'. apply reserved_elem, count_ge_elem in E'.
      destruct (IH (n + 1)) as (H1 & H2 & H3); [lia|].
      split; [lia|]. split; [done|]. intros k Hk.
      destruct (decide (k = n)) as [->|?]; [done|]. apply H3. lia.
    + split; [lia|]. split; [done|]. intros k ?. lia.
Qed.

(** The loop of [add_record] always exits, at the first unreserved value
    from [next_id] upwards. *)
Lemma advance_exits b : first_unreserved b (next_id b) (advanced_next_id b).
Proof. apply advance_first, count_ge_fuel. Qed.

(** More fuel does not change the result: the loop has stopped. *)
Lemma advance_more_fuel b fuel :
  (advance_fuel b ≤ fuel)%nat → advance fuel b (next_id b) = advanced_next_id b.
Proof.
  intros H. eapply first_unreserved_unique; [|apply advance_exits].
  apply advance_first. etrans; [apply count_ge_fuel|done].
Qed.

(** ** [min] of a non-empty set *)

Lemma foldr_min_spec (x : Z) (l : list Z) :
  foldr Z.min x l ∈ x :: l ∧ ∀ y, y ∈ x :: l → foldr Z.min x l ≤ y.
Proof.
  induction l as [|a l [IHin IHle]]; simpl.
  - split; [by left|]. intros y ->%list_elem_of_singleton. lia.
  - split.
    + destruct (Z.min_spec a (foldr Z.min x l)) as [[_ ->]|[_ ->]].
      * right. by left.
      * apply elem_of_cons in IHin as [->|?]; [by left|]. right. by right.
    + intros y Hy. rewrite !elem_of_cons in Hy.
      destruct Hy as [->|[->|Hy]].
      * specialize (IHle x (list_elem_of_here _ _)). lia.
      * lia.
      * assert (y ∈ x :: l) as Hy' by by right. specialize (IHle y Hy'). lia.
Qed.

Lemma set_min_spec (s : gset Z) : s ≠ ∅ → is_min (set_min s) s.
Proof.
  intros Hne. unfold set_min, is_min.
  destruct (elements s) as [|x l] eqn:E.
  - apply elements_empty_inv in E. by apply leibniz_equiv in E.
  - destruct (foldr_min_spec x l) as [Hin Hle]. rewrite <- E in Hin, Hle.
    split; [by apply elem_of_elements|].
    intros y Hy. by apply Hle, elem_of_elements.
Qed.

Lemma is_min_unique m1 m2 s : is_min m1 s → is_min m2 s → m1 = m2.
Proof. intros [I1 L1] [I2 L2]. specialize (L1 _ I2). specialize (L2 _ I1). lia. Qed.

(** ** [add_record] and [delete_record_by_id] keep the invariants *)

Lemma dense_advanced b : dense b → advanced_next_id b = next_id b.
Proof.
  intros [H1 Hd]. eapply first_unreserved_unique; [apply advance_exits|].
  split; [lia|]. split; [|intros k ?; lia].
  destruct (reserved b (next_id b)) eqn:E; [|done]. apply Hd in E. lia.
Qed.

Section add_record_facts.
Variables (b : AddressBook) (h : heap) (l : loc).

Lemma add_record_free_empty :
  free_ids b = ∅ →
  add_record b h l =
    (advanced_next_id b,
     mkBook (dict_set (data b) (advanced_next_id b) l)
            (advanced_next_id b + 1) ∅ (current b),
     set_id l (advanced_next_id b) h).
Proof. intros H. unfold add_record. rewrite decide_True by done. by rewrite H. Qed.

Lemma add_record_free_nonempty :
  free_ids b ≠ ∅ →
  add_record b h l =
    (set_min (free_ids b),
     mkBook (dict_set (data b) (set_min (free_ids b)) l)
            (advanced_next_id b) (free_ids b ∖ {[set_min (free_ids b)]})
            (current b),
     set_id l (set_min (free_ids b)) h).
Proof. intros H. unfold add_record. by rewrite decide_False. Qed.

Lemma add_record_data :
  data (add_record b h l).1.2 = dict_set (data b) (add_record b h l).1.1 l.
Proof. unfold add_record. by destruct (decide (free_ids b = ∅)). Qed.

Lemma add_record_heap :
  (add_record b h l).2 = set_id l (add_record b h l).1.1 h.
Proof. unfold add_record. by destruct (decide (free_ids b = ∅)). Qed.

(** With [free_ids] disjoint from the keys, the identifier handed out is
    not a key of [data]: nothing is overwritten. *)
Lemma add_record_new_key :
  free_disjoint b → (add_record b h l).1.1 ∉ keys (data b).
Proof.
  intros Hd. destruct (decide (free_ids b = ∅)) as [He|Hne].
  - rewrite add_record_free_empty by done. simpl.
    destruct (advance_exits b) as (_ & Hf & _).
    by apply reserved_false in Hf as [? _].
  - rewrite add_record_free_nonempty by done. simpl.
    destruct (set_min_spec _ Hne) as [Hin _]. intros Hk.
    by apply Hd in Hk.
Qed.

Lemma add_record_disjoint :
  free_disjoint b → free_disjoint (add_record b h l).1.2.
Proof.
  intros Hd k. destruct (decide (free_ids b = ∅)) as [He|Hne].
  - rewrite add_record_free_empty by done. simpl. set_solver.
  - rewrite add_record_free_nonempty by done. simpl.
    rewrite keys_dict_set. intros [->|Hk]; [set_solver|].
    apply Hd in Hk. set_solver.
Qed.

Lemma add_record_dense : dense b → dense (add_record b h l).1.2.
Proof.
  intros Hdense. pose proof (dense_advanced _ Hdense) as Hadv.
  destruct Hdense as [H1 Hd].
  destruct (decide (free_ids b = ∅)) as [He|Hne].
  - rewrite add_record_free_empty by done. rewrite Hadv.
    split; simpl; [lia|]. intros k.
    rewrite reserved_true; simpl. rewrite keys_dict_set.
    specialize (Hd k). rewrite reserved_true, He in Hd.
    split.
    + intros [[->|Hk]|Hk]; [lia| |set_solver].
      assert (1 ≤ k < next_id b) by (apply Hd; by left). lia.
    + intros Hk. left. destruct (decide (k = next_id b)); [by left|].
      right. destruct Hd as [_ Hd]. destruct Hd as [?|?]; [lia|done|set_solver].
  - rewrite add_record_free_nonempty by done. rewrite Hadv.
    split; simpl; [lia|]. intros k. rewrite <- Hd.
    rewrite !reserved_true; simpl. rewrite keys_dict_set.
    destruct (set_min_spec _ Hne) as [Hin _].
    rewrite elem_of_difference, not_elem_of_singleton.
    destruct (decide (k = set_min (free_ids b))) as [->|?]; [tauto|tauto].
Qed.

End add_record_facts.

Lemma delete_disjoint b p : free_disjoint b → free_disjoint (delete_record_by_id b p).
Proof.
  intros Hd. destruct p as [k0|]; simpl; [|done].
  destruct (dict_mem k0 (data b)) eqn:E; [|done].
  intros k; simpl. rewrite keys_dict_del. intros [Hne Hk].
  apply Hd in Hk. set_solver.
Qed.

Lemma delete_dense b p : dense b → dense (delete_record_by_id b p).
Proof.
  intros [H1 Hd]. destruct p as [k0|]; simpl; [|done].
  destruct (dict_mem k0 (data b)) eqn:E; [|done].
  apply dict_mem_true in E.
  split; simpl; [done|]. intros k. rewrite <- Hd, !reserved_true; simpl.
  rewrite keys_dict_del, elem_of_union, elem_of_singleton.
  destruct (decide (k = k0)) as [->|?]; tauto.
Qed.

Lemma set_id_same l v h : rec_id (set_id l v h l) = Some v.
Proof. unfold set_id. by rewrite decide_True. Qed.

Lemma set_id_other l l' v h : l' ≠ l → set_id l v h l' = h l'.
Proof. intros H. unfold set_id. by rewrite decide_False. Qed.

Lemma add_record_key_is_id b h l :
  l ∉ values (data b) →
  key_is_id (b, h) → key_is_id ((add_record b h l).1.2, (add_record b h l).2).
Proof.
  intros Hl Hinv k l'; simpl.
  rewrite add_record_data, add_record_heap.
  intros [[= -> ->]|Hin]%elem_of_dict_set_inv.
  - apply set_id_same.
  - rewrite set_id_other; [by apply Hinv|].
    intros ->. apply Hl, elem_of_values. by exists k.
Qed.

Lemma delete_key_is_id b h p :
  key_is_id (b, h) → key_is_id (delete_record_by_id b p, h).
Proof.
  intros Hinv. destruct p as [k0|]; simpl; [|done].
  destruct (dict_mem k0 (data b)) eqn:E; [|done].
  intros k l; simpl. intros [_ Hin]%elem_of_dict_del. by apply Hinv.
Qed.

Lemma run_op_add b h l :
  run_op (b, h) (Insert l) = ((add_record b h l).1.2, (add_record b h l).2).
Proof. simpl. by destruct (add_record b h l) as [[? ?] ?]. Qed.

Lemma run_disjoint s ops : free_disjoint s.1 → free_disjoint (run s ops).1.
Proof.
  revert s. induction ops as [|o ops IH]; intros [b h] Hd; [done|].
  apply IH. destruct o as [l|p].
  - rewrite run_op_add. by apply add_record_disjoint.
  - by apply delete_disjoint.
Qed.

Lemma run_dense s ops : dense s.1 → dense (run s ops).1.
Proof.
  revert s. induction ops as [|o ops IH]; intros [b h] Hd; [done|].
  apply IH. destruct o as [l|p].
  - rewrite run_op_add. by apply add_record_dense.
  - by apply delete_dense.
Qed.

Lemma run_key_is_id s ops :
  distinct_inserts s ops → key_is_id s → key_is_id (run s ops).
Proof.
  revert s. induction ops as [|o ops IH]; intros [b h] Hf Hinv; [done|].
  destruct Hf as [Ho Hf]. apply IH; [done|]. destruct o as [l|p].
  - rewrite run_op_add. by apply add_record_key_is_id.
  - by apply delete_key_is_id.
Qed.

Lemma new_book_disjoint : free_disjoint new_book.
Proof. intros k H. by apply elem_of_nil in H. Qed.

Lemma new_book_dense : dense new_book.
Proof.
  split; [done|]. intros k. rewrite reserved_true. simpl. split.
  - intros [H|H]; [by apply elem_of_nil in H|set_solver].
  - lia.
Qed.

Lemma new_book_key_is_id h : key_is_id (new_book, h).
Proof. intros k l H. by apply elem_of_nil in H. Qed.

Lemma reachable_dense s : reachable s → dense s.1.
Proof. intros (h & ops & ->). apply run_dense, new_book_dense. Qed.

Lemma reachable_disjoint s : reachable s → free_disjoint s.1.
Proof. intros (h & ops & ->). apply run_disjoint, new_book_disjoint. Qed.

(** The association list stays a dict: keys remain unique. *)
Lemma dict_set_nodup (d : dict) k v : NoDup (keys d) → NoDup (keys (dict_set d k v)).
Proof.
  induction d as [|[k0 v0] d IH]; simpl.
  - intros _. unfold keys; simpl. apply NoDup_singleton.
  - unfold keys in *; simpl. intros [Hk0 Hd]%NoDup_cons.
    destruct (decide (k0 = k)) as [->|Hne]; simpl.
    + by apply NoDup_cons.
    + apply NoDup_cons. split; [|by apply IH].
      intros [?|?]%keys_dict_set; [done|]. by apply Hk0.
Qed.

Lemma dict_del_nodup (d : dict) k : NoDup (keys d) → NoDup (keys (dict_del d k)).
Proof.
  unfold keys, dict_del. intros H.
  assert ((filter (fun kv : Z * loc => kv.1 ≠ k) d).*1 `sublist_of` d.*1) as Hs
    by apply fmap_sublist, sublist_filter.
  by apply (sublist_NoDup _ _ H).
Qed.

Lemma run_keys_nodup s ops : NoDup (keys (data s.1)) → NoDup (keys (data (run s ops).1)).
Proof.
  revert s. induction ops as [|o ops IH]; intros [b h] Hd; [done|].
  apply IH. destruct o as [l|p].
  - rewrite run_op_add. simpl. rewrite add_record_data. by apply dict_set_nodup.
  - simpl. destruct p as [k0|]; simpl; [|done].
    destruct (dict_mem k0 (data b)); [|done]. by apply dict_del_nodup.
Qed.

(** ** Identifier allocation *)

Lemma reachable_init h : reachable (new_book, h).
Proof. by exists h, []. Qed.

Lemma reachable_step s o : reachable s → reachable (run_op s o).
Proof.
  intros (h & ops & ->). exists h, (ops ++ [o]).
  unfold run. by rewrite foldl_app.
Qed.

Lemma reachable_add b h l :
  reachable (b, h) → reachable ((add_record b h l).1.2, (add_record b h l).2).
Proof. intros H. rewrite <- run_op_add. by apply reachable_step. Qed.

Lemma dense_next_unreserved b : dense b → reserved b (next_id b) = false.
Proof.
  intros [_ Hd]. destruct (reserved b (next_id b)) eqn:E; [|done].
  apply Hd in E. lia.
Qed.

(** In the counterexample store the id handed out is [next_id = 1], and
    [next_id] is left on 2, the key of the stored record. *)
Lemma insert_rule_counterexample :
  ¬ insert_rule_as_stated reloaded.1 reloaded.2 3%nat.
Proof.
  unfold insert_rule_as_stated. intros [_ H].
  destruct H as [_ H]; [reflexivity|].
  vm_compute in H. discriminate H.
Qed.

(** C1, in the form the code satisfies. [add_record] first moves [next_id]
    to the first value, from [next_id] upwards, that is neither a key of
    [data] nor in [free_ids]. Then, if [free_ids] is non-empty, the record
    gets the minimum of [free_ids], which is removed from the set; otherwise
    it gets the moved [next_id], and [next_id] becomes that value plus one.
    The record is stored under its id. In every store reachable from a fresh
    one by inserts and deletes the loop does not move [next_id], and after
    the insert [next_id] is reserved by neither set. Three inserts into a
    fresh store get 1, 2, 3; after deleting 2 the next insert gets 2. *)
Theorem add_record_allocation :
  (∀ b h l,
     let r := add_record b h l in
     let rid := r.1.1 in
     let b' := r.1.2 in
     first_unreserved b (next_id b) (advanced_next_id b)
     ∧ (free_ids b ≠ ∅ →
        is_min rid (free_ids b) ∧ free_ids b' = free_ids b ∖ {[rid]}
        ∧ next_id b' = advanced_next_id b)
     ∧ (free_ids b = ∅ →
        rid = advanced_next_id b ∧ next_id b' = rid + 1 ∧ free_ids b' = ∅)
     ∧ data b' = dict_set (data b) rid l
     ∧ rec_id (r.2 l) = Some rid
     ∧ (reachable (b, h) →
        advanced_next_id b = next_id b ∧ reserved b' (next_id b') = false))
  ∧ (∀ h l1 l2 l3 l4,
       let r1 := add_record new_book h l1 in
       let r2 := add_record r1.1.2 r1.2 l2 in
       let r3 := add_record r2.1.2 r2.2 l3 in
       let b4 := delete_record_by_id r3.1.2 (Some 2) in
       let r5 := add_record b4 r3.2 l4 in
       [r1.1.1; r2.1.1; r3.1.1] = [1; 2; 3] ∧ r5.1.1 = 2).
Proof.
  split.
  - intros b h l r rid b'. subst r rid b'.
    split; [apply advance_exits|].
    split; [|split; [|split; [|split]]].
    + intros Hne. rewrite add_record_free_nonempty by done. simpl.
      split; [by apply set_min_spec|done].
    + intros He. rewrite add_record_free_empty by done. done.
    + apply add_record_data.
    + rewrite add_record_heap. apply set_id_same.
    + intros Hr. split; [by apply dense_advanced, (reachable_dense _ Hr)|].
      apply dense_next_unreserved.
      apply (reachable_dense _ (reachable_add _ _ l Hr)).
  - intros h l1 l2 l3 l4. vm_compute. done.
Qed.

Lemma add_record_allocation_witness :
  let r := add_record two_minus_first.1 two_minus_first.2 3%nat in
  is_min r.1.1 (free_ids two_minus_first.1)
  ∧ r.1.1 = 1
  ∧ reserved r.1.2 (next_id r.1.2) = false.
Proof.
  pose proof (proj1 add_record_allocation two_minus_first.1 two_minus_first.2 3%nat)
    as (_ & Hfree & _ & _ & _ & Hreach).
  split; [|split].
  - apply Hfree. intros H. apply (f_equal elements) in H.
    vm_compute in H. discriminate H.
  - reflexivity.
  - apply Hreach.
    exists bobs, [Insert 1%nat; Insert 2%nat; Delete (Some 1)]. reflexivity.
Defined.

(** ** Store invariants *)

(** Inserting the same [Record] object twice stores it under keys 1 and
    2 while its [id] is 2. *)
Lemma store_invariant_counterexample :
  ¬ store_invariant (run (new_book, bobs) [Insert 1%nat; Insert 1%nat]).
Proof.
  intros [Hk _]. specialize (Hk 1 1%nat).
  assert ((1, 1%nat) ∈ data (run (new_book, bobs) [Insert 1%nat; Insert 1%nat]).1)
    as Hin by (vm_compute; left).
  specialize (Hk Hin). vm_compute in Hk. discriminate Hk.
Qed.

(** C7, in the form the code satisfies. In every state obtained from the
    fresh empty store by inserts and deletes, [free_ids] is disjoint from
    the keys of [entries]; and when every insert is given a record object
    that is not stored in the book at that moment, every key of [entries]
    equals the [id] field of the record stored under it. *)
Theorem store_invariant_reachable h ops :
  free_disjoint (run (new_book, h) ops).1
  ∧ (distinct_inserts (new_book, h) ops →
     store_invariant (run (new_book, h) ops)).
Proof.
  assert (free_disjoint (run (new_book, h) ops).1) as Hd
    by apply run_disjoint, new_book_disjoint.
  split; [done|]. intros Hf. split; [|done].
  by apply run_key_is_id, new_book_key_is_id.
Qed.

Lemma store_invariant_reachable_witness :
  store_invariant
    (run (new_book, bobs)
         [Insert 1%nat; Insert 2%nat; Delete (Some 1); Insert 3%nat; Insert 1%nat]).
Proof.
  apply (store_invariant_reachable bobs
           [Insert 1%nat; Insert 2%nat; Delete (Some 1); Insert 3%nat; Insert 1%nat]).
  repeat split; vm_compute; intros H;
    repeat (apply elem_of_cons in H as [H|H]; [discriminate H|]);
    by apply elem_of_nil in H.
Defined.

(** ** Insertion after loading *)

Lemma load_free_ids f h : free_ids (load_address_book f h).1 = ∅.
Proof. by destruct f. Qed.

Lemma free_empty_disjoint b : free_ids b = ∅ → free_disjoint b.
Proof. intros H k _. rewrite H. set_solver. Qed.

(** C10. In a store whose [free_ids] is empty, whatever [next_id] is (in
    particular after loading, when [next_id] is 1 and keys at or above it
    exist), [add_record] assigns an id that is not a key of [entries] and
    all existing entries stay; and in every state reached from a loaded
    store by later inserts and deletes, an insert never assigns a key
    already present. *)
Theorem insert_after_load_keeps_entries :
  (∀ b h l, free_ids b = ∅ →
     let r := add_record b h l in
     (r.1.1 ∉ keys (data b)) ∧ next_id b ≤ r.1.1
     ∧ data r.1.2 = data b ++ [(r.1.1, l)])
  ∧ (∀ f h ops l,
       let s := run (load_address_book f h) ops in
       (add_record s.1 s.2 l).1.1 ∉ keys (data s.1)).
Proof.
  split.
  - intros b h l He r. subst r.
    assert ((add_record b h l).1.1 ∉ keys (data b)) as Hnew
      by by apply add_record_new_key, free_empty_disjoint.
    split; [done|]. split.
    + rewrite add_record_free_empty by done. simpl.
      by destruct (advance_exits b) as (? & _).
    + rewrite add_record_data. by apply dict_set_new.
  - intros f h ops l s. subst s. apply add_record_new_key, run_disjoint.
    apply free_empty_disjoint, load_free_ids.
Qed.

Lemma insert_after_load_keeps_entries_witness :
  next_id reloaded.1 ≤ 2 ∧ 2 ∈ keys (data reloaded.1)
  ∧ (add_record reloaded.1 reloaded.2 3%nat).1.1 ∉ keys (data reloaded.1).
Proof.
  split; [by vm_compute|]. split; [vm_compute; left|].
  apply (proj1 insert_after_load_keeps_entries reloaded.1 reloaded.2 3%nat).
  reflexivity.
Defined.

(** ** Save and load *)

(** After one insert the store has [next_id = 2]; the reloaded store has
    [next_id = 1]. *)
Lemma roundtrip_counterexample :
  ¬ roundtrip_as_stated (run (new_book, bobs) [Insert 1%nat]).
Proof.
  intros H.
  destruct (H (Pickle (data (run (new_book, bobs) [Insert 1%nat]).1)
                      (run (new_book, bobs) [Insert 1%nat]).2) bobs eq_refl)
    as (_ & _ & _ & Hn).
  vm_compute in Hn. discriminate Hn.
Qed.

(** The first id handed out from [next_id = 1] with no released ids is the
    first positive integer that is not a key. *)
Lemma reload_first_id b h l m :
  first_unreserved (mkBook (data b) 1 ∅ None) 1 m →
  (add_record (mkBook (data b) 1 ∅ None) h l).1.1 = m.
Proof.
  intros Hm. rewrite add_record_free_empty by done. simpl.
  eapply first_unreserved_unique; [apply advance_exits|done].
Qed.

Lemma reachable_reload_same_id b h h' l :
  reachable (b, h) →
  (add_record (mkBook (data b) 1 ∅ None) h' l).1.1 = (add_record b h l).1.1.
Proof.
  intros Hr. pose proof (reachable_dense _ Hr) as Hdense.
  pose proof (reachable_disjoint _ Hr) as Hdisj. simpl in Hdense, Hdisj.
  pose proof (dense_advanced _ Hdense) as Hadv.
  destruct Hdense as [H1 Hd].
  apply reload_first_id.
  destruct (decide (free_ids b = ∅)) as [He|Hne].
  - rewrite add_record_free_empty by done. simpl. rewrite Hadv.
    split; [done|]. split.
    + apply reserved_false; simpl. split; [|set_solver].
      intros Hk. assert (reserved b (next_id b) = true) as E
        by (apply reserved_true; by left).
      apply Hd in E. lia.
    + intros k Hk. apply reserved_true; simpl. left.
      apply Hd, reserved_true in Hk as [?|Hk]; [done|].
      rewrite He in Hk. set_solver.
  - rewrite add_record_free_nonempty by done. simpl.
    destruct (set_min_spec _ Hne) as [Hin Hle].
    assert (1 ≤ set_min (free_ids b) < next_id b) as Hrange
      by (apply Hd, reserved_true; by right).
    split; [lia|]. split.
    + apply reserved_false; simpl. split; [|set_solver].
      intros Hk. by apply Hdisj in Hk.
    + intros k Hk. apply reserved_true; simpl. left.
      assert (reserved b k = true) as E by (apply Hd; lia).
      apply reserved_true in E as [?|Hf]; [done|].
      apply Hle in Hf. lia.
Qed.

(** C2, in the form the code satisfies. A successful save followed by load
    reproduces the entries: the same ids in the same order, referring to the
    same record contents. The allocator state is not saved: the loaded store
    has [next_id = 1] and an empty [free_ids]. For a store reachable from a
    fresh one by inserts and deletes, the next insert into the loaded store
    still receives the id the original store would have assigned; in
    particular, when released ids exist, the smallest one is reused. *)
Theorem save_load_roundtrip b h h' :
  save_address_book true b h = Some (Pickle (data b) h)
  ∧ load_address_book (Pickle (data b) h) h' = (mkBook (data b) 1 ∅ None, h)
  ∧ (reachable (b, h) → ∀ l,
       let s := load_address_book (Pickle (data b) h) h' in
       (add_record s.1 s.2 l).1.1 = (add_record b h l).1.1
       ∧ (free_ids b ≠ ∅ → is_min (add_record s.1 s.2 l).1.1 (free_ids b))).
Proof.
  split; [done|]. split; [done|]. intros Hr l s. subst s. simpl.
  split; [by apply reachable_reload_same_id|].
  intros Hne. rewrite (reachable_reload_same_id b h h l Hr).
  rewrite add_record_free_nonempty by done. simpl. by apply set_min_spec.
Qed.

Lemma save_load_roundtrip_witness :
  (add_record reloaded.1 reloaded.2 3%nat).1.1 = 1
  ∧ is_min (add_record reloaded.1 reloaded.2 3%nat).1.1 (free_ids two_minus_first.1).
Proof.
  destruct (save_load_roundtrip two_minus_first.1 two_minus_first.2 bobs)
    as (_ & _ & H).
  assert (reachable (two_minus_first.1, two_minus_first.2)) as Hr
    by (exists bobs, [Insert 1%nat; Insert 2%nat; Delete (Some 1)]; reflexivity).
  destruct (H Hr 3%nat) as [_ Hmin].
  split; [reflexivity|]. apply Hmin.
  intros He. apply (f_equal elements) in He. vm_compute in He. discriminate He.
Defined.

(** ** Batched iteration *)

Lemma drain_S fuel b :
  drain (S fuel) b =
  match next_ b with
  | (Batch records, it') => (fun bs => records :: bs) <$> drain fuel it'
  | (StopIteration, _) => Some []
  | (AttributeError, _) => None
  end.
Proof. done. Qed.

Section drain_facts.
Variables (d : dict) (n : Z) (f : gset Z).

Local Abbreviation it c := (mkBook d n f (Some c)).

Lemma drain_spec fuel c :
  (length d - c < fuel)%nat →
  ∃ bs, drain fuel (it c) = Some bs
        ∧ concat bs = drop c (values d)
        ∧ Forall (fun x => (1 ≤ length x ≤ 5)%nat) bs
        ∧ (∀ i x, bs !! i = Some x → (S i < length bs)%nat → length x = 5%nat)
        ∧ ((length d ≤ c)%nat → bs = []).
Proof.
  revert c. induction fuel as [|fuel IH]; intros c Hfuel; [lia|].
  simpl. unfold next_. simpl. destruct (c <? length d)%nat eqn:E.
  - apply Nat.ltb_lt in E.
    destruct (IH (c + 5)%nat) as (bs & Hbs & Hcat & Hlen & Hfull & Hnil); [lia|].
    rewrite Hbs. simpl.
    exists (take 5 (drop c (values d)) :: bs).
    assert (length (values d) = length d) as Hv
      by (unfold values; apply length_fmap).
    split; [done|]. split; [|split; [|split]].
    + simpl. rewrite Hcat, <- drop_drop. apply take_drop.
    + constructor; [|done]. rewrite length_take, length_drop. lia.
    + intros [|i] x; simpl.
      * intros [= <-] Hi. rewrite length_take, length_drop.
        destruct (decide (length d ≤ c + 5)%nat) as [Hle|?]; [|lia].
        rewrite (Hnil Hle) in Hi. simpl in Hi. lia.
      * intros Hx Hi. apply (Hfull i x Hx). lia.
    + lia.
  - apply Nat.ltb_ge in E. exists []. repeat split; try done.
    rewrite drop_ge; [done|]. unfold values. rewrite length_fmap. done.
Qed.

(** Once the traversal has ended, more fuel changes nothing. *)
Lemma drain_more_fuel fuel c bs :
  drain fuel (it c) = Some bs → drain (S fuel) (it c) = Some bs.
Proof.
  revert c bs. induction fuel as [|fuel IH]; intros c bs H; [done|].
  rewrite drain_S in H. rewrite drain_S.
  unfold next_ in *. cbn [current data next_id free_ids] in *.
  destruct (c <? length d)%nat; [|done].
  destruct (drain fuel (it (c + 5)%nat)) as [bs'|] eqn:E; [|done].
  by rewrite (IH _ _ E).
Qed.
End drain_facts.

(** C8. A fresh batched iteration reaches [StopIteration] and yields batches
    of at least one and at most 5 records; their concatenation is the list
    of the records of [entries] in insertion order, each entry once; every
    batch but the last has exactly 5 records; with 12 records the batch
    sizes are 5, 5, 2. *)
Theorem iterate_batches_spec (b : AddressBook) :
  ∃ bs, iterate_batches b = Some bs
        ∧ concat bs = values (data b)
        ∧ Forall (fun x => (1 ≤ length x ≤ 5)%nat) bs
        ∧ (∀ i x, bs !! i = Some x → (S i < length bs)%nat → length x = 5%nat)
        ∧ (length (data b) = 12%nat → length <$> bs = [5; 5; 2]%nat).
Proof.
  destruct b as [d n f c]. unfold iterate_batches, iter_. simpl.
  destruct (drain_spec d n f (S (length d)) 0) as (bs & Hbs & Hcat & Hlen & Hfull & _);
    [lia|].
  exists bs. split; [done|]. split; [done|]. split; [done|]. split; [done|].
  intros H12.
  do 12 (destruct d as [|? d]; [discriminate H12|]).
  destruct d as [|? d]; [|discriminate H12].
  clear -Hbs. cbn in Hbs. injection Hbs as <-. reflexivity.
Qed.

Lemma iterate_batches_spec_witness :
  ∃ bs, iterate_batches (run (new_book, bobs) (Insert <$> seq 0 12)).1 = Some bs
        ∧ length <$> bs = [5; 5; 2]%nat.
Proof.
  destruct (iterate_batches_spec (run (new_book, bobs) (Insert <$> seq 0 12)).1)
    as (bs & Hbs & _ & _ & _ & H12).
  exists bs. split; [exact Hbs|]. apply H12. reflexivity.
Defined.

(** ** Search *)

Lemma append_cons a s t : String a s +:+ t = String a (s +:+ t).
Proof. done. Qed.

Lemma append_nil s : "" +:+ s = s.
Proof. done. Qed.

Lemma prefix_spec sub s :
  String.prefix sub s = true ↔ ∃ post, s = sub +:+ post.
Proof.
  revert s. induction sub as [|a sub IH]; intros s; simpl.
  - split; [intros _; by exists s|by destruct s].
  - destruct s as [|c s].
    + split; [done|]. intros [post Hp]. by rewrite append_cons in Hp.
    + simpl. destruct (Ascii.ascii_dec a c) as [Heq|Hne].
      * subst c. rewrite IH.
        split; intros [post Hp]; exists post; rewrite ?append_cons in *;
          congruence.
      * split; [done|]. intros [post Hp]. rewrite append_cons in Hp. congruence.
Qed.

Lemma str_in_unfold sub s :
  str_in sub s =
  String.prefix sub s ||
  match s with
  | EmptyString => false
  | String _ s' => str_in sub s'
  end.
Proof. by destruct s. Qed.

(** [sub in s] holds exactly when [s] is [pre + sub + post]. *)
Lemma str_in_spec sub s :
  str_in sub s = true ↔ ∃ pre post, s = pre +:+ sub +:+ post.
Proof.
  induction s as [|c s IH]; rewrite str_in_unfold, orb_true_iff, prefix_spec.
  - split.
    + intros [[post ->]|?]; [|done]. by exists "", post.
    + intros [[|? pre] [post H]]; [left; by exists post|].
      by rewrite append_cons in H.
  - rewrite IH. split.
    + intros [[post ->]|(pre & post & ->)]; [by exists "", post|].
      by exists (String c pre), post.
    + intros [[|a pre] [post H]]; [left; by exists post|].
      right. exists pre, post. rewrite append_cons in H. congruence.
Qed.

Lemma scan_fields_elem t fs rec found l :
  l ∈ scan_fields t fs rec found ↔
  l ∈ found ∨ (l = rec ∧ existsb (fun p => str_in t (value p)) fs = true).
Proof.
  induction fs as [|p fs IH]; simpl.
  - split; [by left|]. by intros [?|[_ ?]].
  - destruct (str_in t (value p)); simpl; [|done].
    rewrite elem_of_app, list_elem_of_singleton. split; intros [?|?]; auto.
    right. tauto.
Qed.

Lemma find_step_elem t h found rec l :
  l ∈ find_step t h found rec ↔
  l ∈ found ∨ (l = rec ∧ record_matches t (h rec) = true).
Proof.
  unfold find_step, record_matches, name_matches, phone_matches, email_matches.
  destruct (str_in (lower t) (lower (value (rec_name (h rec))))); simpl.
  - rewrite elem_of_app, list_elem_of_singleton. tauto.
  - rewrite !scan_fields_elem, orb_true_iff. tauto.
Qed.

Lemma find_loop_elem t h ls found l :
  l ∈ foldl (find_step t h) found ls ↔
  l ∈ found ∨ (l ∈ ls ∧ record_matches t (h l) = true).
Proof.
  revert found. induction ls as [|rec ls IH]; intros found; simpl.
  - split; [by left|]. intros [?|[H _]]; [done|]. by apply elem_of_nil in H.
  - rewrite IH, find_step_elem, elem_of_cons. split.
    + intros [[?|[-> ?]]|[? ?]]; auto.
    + intros [?|[[->|?] ?]]; auto.
Qed.

(** The search returns the stored records that match by name (ignoring
    case), by a phone or by an email; nothing else. *)
Lemma find_record_elem b h t l :
  l ∈ find_record b h t ↔
  l ∈ values (data b) ∧ record_matches t (h l) = true.
Proof.
  unfold find_record. rewrite find_loop_elem. split; [|by right].
  intros [H|?]; [by apply elem_of_nil in H|done].
Qed.

(** C3, where the code departs from it. The only record of the store matches
    the term on a phone and on an email, not on its name, and [find_record]
    returns it twice: the [break] of the phone loop does not skip the email
    loop. *)
Theorem find_record_duplicate :
  find_record bob_store.1 bob_store.2 "1" = [1%nat; 1%nat]
  ∧ values (data bob_store.1) = [1%nat]
  ∧ ¬ NoDup (find_record bob_store.1 bob_store.2 "1").
Proof.
  split; [reflexivity|]. split; [reflexivity|].
  change (find_record bob_store.1 bob_store.2 "1") with [1%nat; 1%nat].
  intros H. apply NoDup_cons in H as [H _]. apply H. left.
Qed.

(** ** Phones *)

Lemma list_remove_none x l :
  list_remove x l = None ↔ ¬ present_by_identity x l.
Proof.
  unfold present_by_identity. induction l as [|y l IH]; simpl.
  - split; [|done]. intros _ (p & Hp & _). by apply elem_of_nil in Hp.
  - unfold py_eq. destruct (bool_decide (oid y = oid x)) eqn:E.
    + apply bool_decide_eq_true in E. split; [done|].
      intros H. exfalso. apply H. exists y. split; [left|done].
    + apply bool_decide_eq_false in E.
      destruct (list_remove x l) as [t|]; simpl.
      * split; [done|]. intros H.
        assert (¬ ∃ p, p ∈ l ∧ oid p = oid x) as Hn.
        { intros (p & ? & ?). apply H. exists p. split; [by right|done]. }
        by apply IH in Hn.
      * split; [|done]. intros _ (p & Hp & Hid).
        apply elem_of_cons in Hp as [->|Hp]; [done|].
        destruct IH as [IH _]. apply IH; [done|]. by exists p.
Qed.

Lemma remove_phone_raises r phone :
  (remove_phone r phone).1 = RaisedValueError ↔
  ¬ present_by_identity phone (rec_phones r).
Proof.
  rewrite <- list_remove_none. unfold remove_phone.
  by destruct (list_remove phone (rec_phones r)).
Qed.

Lemma edit_phone_raises r old_phone new_phone :
  (edit_phone r old_phone new_phone).1 = (remove_phone r old_phone).1.
Proof.
  unfold edit_phone, remove_phone.
  by destruct (list_remove old_phone (rec_phones r)).
Qed.

(** A second [Phone] object with the same digits is not found, although a
    phone with an equal string is in the list. *)
Lemma phone_ops_counterexample :
  ¬ phone_ops_as_stated carol same_number other_number.
Proof.
  intros [[H _] _]. apply H; [reflexivity|].
  exists (mkField 11 "123456789"). split; [left|reflexivity].
Qed.

(** C6, in the form the code satisfies. [remove_phone(old)] and
    [edit_phone(old, new)] raise exactly when the list holds no phone that
    is the object [old] itself (the classes define no equality, so a
    different object with the same string does not count); when either
    raises, the record, and with it the phone list, is unchanged. *)
Theorem phone_ops_by_identity r old_phone new_phone :
  ((remove_phone r old_phone).1 = RaisedValueError ↔
     ¬ present_by_identity old_phone (rec_phones r))
  ∧ ((edit_phone r old_phone new_phone).1 = RaisedValueError ↔
     ¬ present_by_identity old_phone (rec_phones r))
  ∧ ((remove_phone r old_phone).1 = RaisedValueError →
     (remove_phone r old_phone).2 = r)
  ∧ ((edit_phone r old_phone new_phone).1 = RaisedValueError →
     (edit_phone r old_phone new_phone).2 = r).
Proof.
  split; [apply remove_phone_raises|].
  split; [rewrite edit_phone_raises; apply remove_phone_raises|].
  unfold edit_phone, remove_phone.
  by destruct (list_remove old_phone (rec_phones r)).
Qed.

Lemma phone_ops_by_identity_witness :
  (edit_phone carol same_number other_number).1 = RaisedValueError
  ∧ (edit_phone carol same_number other_number).2 = carol
  ∧ ¬ present_by_identity same_number (rec_phones carol).
Proof.
  destruct (phone_ops_by_identity carol same_number other_number)
    as (_ & [He _] & _ & Hsame).
  split; [reflexivity|]. split; [apply Hsame; reflexivity|].
  apply He. reflexivity.
Defined.

(** ** Birthday validation *)

Lemma digit_inv a x : digit a = Some x → 0 ≤ x ≤ 9 ∧ a = digit_char x.
Proof.
  unfold digit, digit_char.
  destruct (48 <=? Z.of_nat (nat_of_ascii a)) eqn:E1; [|done].
  destruct (Z.of_nat (nat_of_ascii a) <=? 57) eqn:E2; [|done].
  simpl. intros [= <-]. split; [lia|].
  replace (Z.to_nat (48 + (Z.of_nat (nat_of_ascii a) - 48)))
    with (nat_of_ascii a) by lia.
  by rewrite ascii_nat_embedding.
Qed.

Lemma digit_digit_char x : 0 ≤ x ≤ 9 → digit (digit_char x) = Some x.
Proof.
  intros H. assert (x ∈ seqZ 0 10) as Hx by (apply elem_of_seqZ; lia).
  revert Hx. clear H. revert x. apply Forall_forall.
  by repeat constructor.
Qed.

Lemma pad4_digits y :
  0 ≤ y ≤ 9999 →
  0 ≤ y / 1000 ≤ 9 ∧ 0 ≤ y / 100 mod 10 ≤ 9 ∧ 0 ≤ y / 10 mod 10 ≤ 9
  ∧ 0 ≤ y mod 10 ≤ 9
  ∧ 1000 * (y / 1000) + 100 * (y / 100 mod 10) + 10 * (y / 10 mod 10) + y mod 10 = y.
Proof. intros H. repeat split; Z.to_euclidean_division_equations; lia. Qed.

Lemma append_nil_r s : s +:+ "" = s.
Proof. induction s as [|a s IH]; [done|]. by rewrite append_cons, IH. Qed.

Lemma dec_one x : 0 ≤ x ≤ 9 → dec x = String (digit_char x) "".
Proof. intros H. unfold dec. by rewrite (proj2 (Z.ltb_lt x 10)) by lia. Qed.

Lemma dec_two x y :
  1 ≤ x ≤ 9 → 0 ≤ y ≤ 9 →
  dec (10 * x + y) = String (digit_char x) (String (digit_char y) "").
Proof.
  intros Hx Hy. unfold dec. rewrite (proj2 (Z.ltb_ge (10 * x + y) 10)) by lia.
  replace ((10 * x + y) / 10) with x by (Z.to_euclidean_division_equations; lia).
  by replace ((10 * x + y) mod 10) with y by (Z.to_euclidean_division_equations; lia).
Qed.

Lemma pad2_two x y :
  0 ≤ x ≤ 9 → 0 ≤ y ≤ 9 →
  pad2 (10 * x + y) = String (digit_char x) (String (digit_char y) "").
Proof.
  intros Hx Hy. unfold pad2.
  replace ((10 * x + y) / 10) with x by (Z.to_euclidean_division_equations; lia).
  by replace ((10 * x + y) mod 10) with y by (Z.to_euclidean_division_equations; lia).
Qed.

Lemma dec_month_text m : dec m ∈ month_texts m.
Proof. unfold month_texts. destruct (m <? 10); left. Qed.

Lemma pad2_month_text m : m < 10 → pad2 m ∈ month_texts m.
Proof.
  intros H. unfold month_texts. rewrite (proj2 (Z.ltb_lt m 10)) by done.
  right. left.
Qed.

Lemma dec_day_text d : dec d ∈ day_texts d.
Proof. unfold day_texts. destruct (d <? 10); left. Qed.

Lemma pad2_day_text d : d < 10 → pad2 d ∈ day_texts d.
Proof.
  intros H. unfold day_texts. rewrite (proj2 (Z.ltb_lt d 10)) by done.
  right. left.
Qed.

Lemma space_day_text d : d < 10 → String " " (dec d) ∈ day_texts d.
Proof.
  intros H. unfold day_texts. rewrite (proj2 (Z.ltb_lt d 10)) by done.
  right. right. left.
Qed.

Section regex_pieces.
Implicit Types (s rest : string) (v : Z).

Lemma re_lit_inv c s rest : rest ∈ re_lit c s → s = String c rest.
Proof.
  destruct s as [|a s]; simpl; [by intros ?%elem_of_nil|].
  destruct (Ascii.eqb a c) eqn:E; [|by intros ?%elem_of_nil].
  apply Ascii.eqb_eq in E as ->. by intros ->%list_elem_of_singleton.
Qed.

Lemma re_2_inv p s v rest :
  (v, rest) ∈ re_2 p s →
  ∃ x y, 0 ≤ x ≤ 9 ∧ 0 ≤ y ≤ 9 ∧ p x y = true ∧ v = 10 * x + y
         ∧ s = String (digit_char x) (String (digit_char y) rest).
Proof.
  destruct s as [|a [|b s]]; simpl; try by intros ?%elem_of_nil.
  destruct (digit a) as [x|] eqn:Ea; [|by intros ?%elem_of_nil].
  destruct (digit b) as [y|] eqn:Eb; [|by intros ?%elem_of_nil].
  destruct (p x y) eqn:Ep; [|by intros ?%elem_of_nil].
  intros [= -> ->]%list_elem_of_singleton.
  apply digit_inv in Ea as [Hx ->]. apply digit_inv in Eb as [Hy ->].
  by exists x, y.
Qed.

Lemma re_1_inv s v rest :
  (v, rest) ∈ re_1 s → 1 ≤ v ≤ 9 ∧ s = String (digit_char v) rest.
Proof.
  destruct s as [|a s]; simpl; [by intros ?%elem_of_nil|].
  destruct (digit a) as [x|] eqn:Ea; [|by intros ?%elem_of_nil].
  destruct (1 <=? x) eqn:E1; [|by intros ?%elem_of_nil].
  intros [= -> ->]%list_elem_of_singleton.
  apply digit_inv in Ea as [Hx ->]. split; [lia|done].
Qed.

Lemma re_Y_inv s v rest :
  (v, rest) ∈ re_Y s → 0 ≤ v ≤ 9999 ∧ s = pad4 v +:+ rest.
Proof.
  destruct s as [|a [|b [|c [|d s]]]]; simpl; try by intros ?%elem_of_nil.
  destruct (digit a) as [x|] eqn:Ea; [|by intros ?%elem_of_nil].
  destruct (digit b) as [y|] eqn:Eb; [|by intros ?%elem_of_nil].
  destruct (digit c) as [z|] eqn:Ec; [|by intros ?%elem_of_nil].
  destruct (digit d) as [w|] eqn:Ed; [|by intros ?%elem_of_nil].
  intros [= -> ->]%list_elem_of_singleton.
  apply digit_inv in Ea as [Hx ->]. apply digit_inv in Eb as [Hy ->].
  apply digit_inv in Ec as [Hz ->]. apply digit_inv in Ed as [Hw ->].
  split; [lia|]. unfold pad4. rewrite !append_cons, append_nil.
  set (n := 1000 * x + 100 * y + 10 * z + w).
  replace (n / 1000) with x by (subst n; Z.to_euclidean_division_equations; lia).
  replace (n / 100 mod 10) with y by (subst n; Z.to_euclidean_division_equations; lia).
  replace (n / 10 mod 10) with z by (subst n; Z.to_euclidean_division_equations; lia).
  by replace (n mod 10) with w by (subst n; Z.to_euclidean_division_equations; lia).
Qed.

Lemma re_m_inv s v rest :
  (v, rest) ∈ re_m s →
  1 ≤ v ≤ 12 ∧ ∃ ms, ms ∈ month_texts v ∧ s = ms +:+ rest.
Proof.
  unfold re_m. rewrite !elem_of_app.
  intros [H|[H|H]].
  - apply re_2_inv in H as (x & y & Hx & Hy & Hp & -> & ->).
    apply andb_true_iff in Hp as [->%Z.eqb_eq Hy2%Z.leb_le].
    split; [lia|]. exists (dec (10 * 1 + y)).
    split; [apply dec_month_text|]. by rewrite dec_two by lia.
  - apply re_2_inv in H as (x & y & Hx & Hy & Hp & -> & ->).
    apply andb_true_iff in Hp as [->%Z.eqb_eq Hy2%Z.leb_le].
    split; [lia|]. exists (pad2 (10 * 0 + y)).
    split; [apply pad2_month_text; lia|]. by rewrite pad2_two by lia.
  - apply re_1_inv in H as [Hv ->]. split; [lia|]. exists (dec v).
    split; [apply dec_month_text|]. by rewrite dec_one by lia.
Qed.

Lemma re_d_inv s v rest :
  (v, rest) ∈ re_d s →
  1 ≤ v ≤ 31 ∧ ∃ ds, ds ∈ day_texts v ∧ s = ds +:+ rest.
Proof.
  unfold re_d. rewrite !elem_of_app, list_elem_of_bind.
  intros [H|[H|[H|[H|H]]]].
  - apply re_2_inv in H as (x & y & Hx & Hy & Hp & -> & ->).
    apply andb_true_iff in Hp as [->%Z.eqb_eq Hy2%Z.leb_le].
    split; [lia|]. exists (dec (10 * 3 + y)).
    split; [apply dec_day_text|]. by rewrite dec_two by lia.
  - apply re_2_inv in H as (x & y & Hx & Hy & Hp & -> & ->).
    apply andb_true_iff in Hp as [Hx1%Z.leb_le Hx2%Z.leb_le].
    split; [lia|]. exists (dec (10 * x + y)).
    split; [apply dec_day_text|]. by rewrite dec_two by lia.
  - apply re_2_inv in H as (x & y & Hx & Hy & Hp & -> & ->).
    apply andb_true_iff in Hp as [->%Z.eqb_eq Hy2%Z.leb_le].
    split; [lia|]. exists (pad2 (10 * 0 + y)).
    split; [apply pad2_day_text; lia|]. by rewrite pad2_two by lia.
  - apply re_1_inv in H as [Hv ->]. split; [lia|]. exists (dec v).
    split; [apply dec_day_text|]. by rewrite dec_one by lia.
  - destruct H as (r & H & ->%re_lit_inv).
    apply re_1_inv in H as [Hv ->]. split; [lia|].
    exists (String " " (dec v)).
    split; [apply space_day_text; lia|]. by rewrite dec_one by lia.
Qed.

Lemma md_matches_inv s m d rest :
  (m, d, rest) ∈ md_matches s →
  1 ≤ m ≤ 12 ∧ 1 ≤ d ≤ 31
  ∧ ∃ ms ds, ms ∈ month_texts m ∧ ds ∈ day_texts d
             ∧ s = ms +:+ "-" +:+ ds +:+ rest.
Proof.
  unfold md_matches. rewrite list_elem_of_bind.
  intros ([m' r1] & H & Hm). rewrite list_elem_of_bind in H.
  destruct H as (r2 & H & Hl). rewrite list_elem_of_bind in H.
  destruct H as ([d' r3] & H & Hd).
  apply list_elem_of_singleton in H. simpl in *. injection H as -> -> ->.
  apply re_m_inv in Hm as (Hm & ms & Hms & ->).
  apply re_lit_inv in Hl as ->.
  apply re_d_inv in Hd as (Hd & ds & Hds & ->).
  split; [done|]. split; [done|]. by exists ms, ds.
Qed.

Lemma format_matches_inv s y m d rest :
  (y, m, d, rest) ∈ format_matches s →
  0 ≤ y ≤ 9999 ∧ 1 ≤ m ≤ 12 ∧ 1 ≤ d ≤ 31
  ∧ ∃ ms ds, ms ∈ month_texts m ∧ ds ∈ day_texts d
             ∧ s = pad4 y +:+ "-" +:+ ms +:+ "-" +:+ ds +:+ rest.
Proof.
  unfold format_matches. rewrite list_elem_of_bind.
  intros ([y' r0] & H & Hy). rewrite list_elem_of_bind in H.
  destruct H as (r1 & H & Hl). rewrite list_elem_of_bind in H.
  destruct H as ([[m' d'] r3] & H & Hmd).
  apply list_elem_of_singleton in H. simpl in *. injection H as -> -> -> ->.
  apply re_Y_inv in Hy as (Hy & ->).
  apply re_lit_inv in Hl as ->.
  apply md_matches_inv in Hmd as (Hm & Hd & ms & ds & Hms & Hds & ->).
  split; [done|]. split; [done|]. split; [done|]. by exists ms, ds.
Qed.
End regex_pieces.

Lemma md_check_all :
  forallb (fun m => forallb (md_check m) (seqZ 1 31)) (seqZ 1 12) = true.
Proof. vm_compute. reflexivity. Qed.

Lemma md_iso_check_all :
  forallb (fun m => forallb (md_iso_check m) (seqZ 0 100)) (seqZ 0 100) = true.
Proof. vm_compute. reflexivity. Qed.

Lemma forallb_seqZ (f : Z → bool) lo len x :
  forallb f (seqZ lo len) = true → lo ≤ x < lo + len → f x = true.
Proof.
  intros H Hx. rewrite forallb_forall in H. apply H.
  apply list_elem_of_In, elem_of_seqZ. lia.
Qed.

Lemma md_matches_complete m d ms ds :
  1 ≤ m ≤ 12 → 1 ≤ d ≤ 31 → ms ∈ month_texts m → ds ∈ day_texts d →
  head (md_matches (ms +:+ "-" +:+ ds)) = Some (m, d, "").
Proof.
  intros Hm Hd Hms Hds.
  pose proof (forallb_seqZ _ _ _ m md_check_all ltac:(lia)) as H1.
  pose proof (forallb_seqZ _ _ _ d H1 ltac:(lia)) as H2.
  unfold md_check in H2. rewrite forallb_forall in H2.
  specialize (H2 ms (proj1 (list_elem_of_In _ _) Hms)).
  rewrite forallb_forall in H2.
  specialize (H2 ds (proj1 (list_elem_of_In _ _) Hds)).
  by apply bool_decide_eq_true in H2.
Qed.

Lemma re_Y_pad4 y rest : 0 ≤ y ≤ 9999 → re_Y (pad4 y +:+ rest) = [(y, rest)].
Proof.
  intros Hy. destruct (pad4_digits y Hy) as (H1 & H2 & H3 & H4 & Hsum).
  unfold pad4. rewrite !append_cons, append_nil. simpl.
  rewrite !digit_digit_char by done. by rewrite Hsum.
Qed.

Lemma format_matches_head y r1 md :
  0 ≤ y ≤ 9999 → head (md_matches r1) = Some md →
  head (format_matches (pad4 y +:+ "-" +:+ r1)) = Some (y, md.1.1, md.1.2, md.2).
Proof.
  intros Hy Hmd. unfold format_matches. rewrite re_Y_pad4 by done.
  rewrite append_cons, append_nil. csimpl.
  destruct (md_matches r1) as [|x l]; [done|]. injection Hmd as ->. done.
Qed.

Lemma days_in_month_le y m : days_in_month y m ≤ 31.
Proof.
  unfold days_in_month.
  destruct (m =? 2); [destruct (is_leap y); lia|].
  destruct ((m =? 4) || (m =? 6) || (m =? 9) || (m =? 11)); lia.
Qed.

Lemma valid_date_range y m d :
  valid_date y m d = true → 1 ≤ y ≤ 9999 ∧ 1 ≤ m ≤ 12 ∧ 1 ≤ d ≤ 31.
Proof.
  unfold valid_date. rewrite !andb_true_iff, !Z.leb_le.
  pose proof (days_in_month_le y m). lia.
Qed.

Lemma valid_date_in_range y m d : in_range m d = false → valid_date y m d = false.
Proof.
  intros H. destruct (valid_date y m d) eqn:E; [|done].
  apply valid_date_range in E. unfold in_range in H.
  rewrite !andb_false_iff, !Z.leb_gt in H. lia.
Qed.

Lemma validate_birthday_sound s :
  validate_birthday s = true →
  ∃ y m d, valid_date y m d = true ∧ s ∈ spellings y m d.
Proof.
  unfold validate_birthday, strptime.
  destruct (head (format_matches s)) as [[[[y m] d] rest]|] eqn:E; [|done].
  destruct (String.eqb rest "") eqn:Er; [|done]. simpl.
  destruct (valid_date y m d) eqn:Ev; [|done]. intros _.
  apply String.eqb_eq in Er as ->.
  apply head_Some_elem_of, format_matches_inv in E
    as (_ & _ & _ & ms & ds & Hms & Hds & ->).
  exists y, m, d. split; [done|]. unfold spellings.
  apply list_elem_of_bind. exists ms. split; [|done].
  apply list_elem_of_bind. exists ds. split; [|done].
  rewrite append_nil_r. left.
Qed.

Lemma validate_birthday_complete y m d s :
  valid_date y m d = true → s ∈ spellings y m d → validate_birthday s = true.
Proof.
  intros Hv Hs. pose proof (valid_date_range _ _ _ Hv) as (Hy & Hm & Hd).
  unfold spellings in Hs. apply list_elem_of_bind in Hs as (ms & Hs & Hms).
  apply list_elem_of_bind in Hs as (ds & Hs & Hds).
  apply list_elem_of_singleton in Hs as ->.
  unfold validate_birthday, strptime.
  rewrite (format_matches_head y _ (m, d, "")); [|lia|by apply md_matches_complete].
  simpl. by rewrite Hv.
Qed.

(** On a zero-padded [YYYY-MM-DD] string the validator decides whether the
    three numbers form a date. *)
Lemma validate_birthday_iso y m d :
  0 ≤ y ≤ 9999 → 0 ≤ m ≤ 99 → 0 ≤ d ≤ 99 →
  validate_birthday (iso_text y m d) = valid_date y m d.
Proof.
  intros Hy Hm Hd.
  pose proof (forallb_seqZ _ _ _ m md_iso_check_all ltac:(lia)) as H1.
  pose proof (forallb_seqZ _ _ _ d H1 ltac:(lia)) as H2.
  unfold md_iso_check in H2. unfold validate_birthday, strptime, iso_text.
  destruct (head (md_matches (pad2 m +:+ "-" +:+ pad2 d)))
    as [[[m' d'] rest]|] eqn:E.
  - rewrite (format_matches_head y _ _ Hy E). simpl.
    destruct (String.eqb rest ""); simpl.
    + apply andb_true_iff in H2 as [[->%Z.eqb_eq ->%Z.eqb_eq]%andb_true_iff _].
      by destruct (valid_date y m d).
    + apply negb_true_iff in H2. by rewrite valid_date_in_range.
  - apply negb_true_iff in H2. rewrite valid_date_in_range by done.
    unfold format_matches. rewrite re_Y_pad4 by done.
    rewrite append_cons, append_nil. csimpl.
    by destruct (md_matches (pad2 m +:+ "-" +:+ pad2 d)).
Qed.

(** ["2020-2-9"] is accepted although it is not zero padded. *)
Lemma validate_birthday_counterexample :
  ¬ validate_birthday_as_stated "2020-2-9".
Proof.
  intros [H _]. destruct (H eq_refl) as (y & m & d & _ & Heq).
  apply (f_equal String.length) in Heq. unfold iso_text, pad4, pad2 in Heq.
  rewrite !append_cons, !append_nil in Heq. simpl in Heq. discriminate Heq.
Qed.

(** The accepted spellings are ASCII text. *)
Lemma is_ascii_app s t : is_ascii (s +:+ t) = is_ascii s && is_ascii t.
Proof.
  induction s as [|a s IH]; [done|].
  rewrite append_cons. simpl. by rewrite IH, andb_assoc.
Qed.

Lemma digit_char_ascii n :
  0 ≤ n ≤ 9 → (nat_of_ascii (digit_char n) <? 128)%nat = true.
Proof.
  intros H.
  assert (n = 0 ∨ n = 1 ∨ n = 2 ∨ n = 3 ∨ n = 4 ∨ n = 5 ∨ n = 6 ∨ n = 7
          ∨ n = 8 ∨ n = 9) as Hn by lia.
  destruct Hn as [->|[->|[->|[->|[->|[->|[->|[->|[->| ->]]]]]]]]]; reflexivity.
Qed.

Lemma pad2_ascii n : 0 ≤ n ≤ 99 → is_ascii (pad2 n) = true.
Proof.
  intros H. unfold pad2. simpl.
  rewrite !digit_char_ascii; [done| |];
    Z.to_euclidean_division_equations; lia.
Qed.

Lemma dec_ascii n : 0 ≤ n ≤ 99 → is_ascii (dec n) = true.
Proof.
  intros H. unfold dec. destruct (n <? 10) eqn:E.
  - apply Z.ltb_lt in E. simpl. rewrite digit_char_ascii; [done|lia].
  - by apply pad2_ascii.
Qed.

Lemma pad4_ascii n : 0 ≤ n ≤ 9999 → is_ascii (pad4 n) = true.
Proof.
  intros H. unfold pad4. simpl.
  rewrite !digit_char_ascii; [done| | | |];
    Z.to_euclidean_division_equations; lia.
Qed.

Lemma spellings_ascii y m d s :
  valid_date y m d = true → s ∈ spellings y m d → is_ascii s = true.
Proof.
  intros Hv Hs. pose proof (valid_date_range _ _ _ Hv) as (Hy & Hm & Hd).
  unfold spellings in Hs. apply list_elem_of_bind in Hs as (ms & Hs & Hms).
  apply list_elem_of_bind in Hs as (ds & Hs & Hds).
  apply list_elem_of_singleton in Hs as ->.
  assert (is_ascii ms = true) as Ems.
  { unfold month_texts in Hms. destruct (m <? 10).
    - apply elem_of_cons in Hms as [->|Hms]; [apply dec_ascii; lia|].
      apply list_elem_of_singleton in Hms as ->. apply pad2_ascii; lia.
    - apply list_elem_of_singleton in Hms as ->. apply dec_ascii; lia. }
  assert (is_ascii ds = true) as Eds.
  { unfold day_texts in Hds. destruct (d <? 10).
    - apply elem_of_cons in Hds as [->|Hds]; [apply dec_ascii; lia|].
      apply elem_of_cons in Hds as [->|Hds]; [apply pad2_ascii; lia|].
      apply list_elem_of_singleton in Hds as ->.
      simpl. apply dec_ascii; lia.
    - apply list_elem_of_singleton in Hds as ->. apply dec_ascii; lia. }
  rewrite !is_ascii_app, Ems, Eds, pad4_ascii by lia. reflexivity.
Qed.

(** C9, in the form the code satisfies.  For a string of ASCII characters,
    [Birthday] construction succeeds exactly when the string is made of a
    four-digit year, ["-"], a month, ["-"] and a day that form a real
    calendar date with year 1 to 9999, where the month is written with or
    without a leading zero and the day with or without a leading zero or
    with a leading space; every such spelling is accepted.  On zero-padded
    [YYYY-MM-DD] strings it succeeds iff the date is real: 2021-02-29 fails,
    2020-02-29 succeeds, month 13 is rejected. *)
Theorem validate_birthday_spec :
  (∀ s, (∃ y m d, valid_date y m d = true ∧ s ∈ spellings y m d) →
        is_ascii s = true ∧ validate_birthday s = true)
  ∧ (∀ s, is_ascii s = true → validate_birthday s = true →
          ∃ y m d, valid_date y m d = true ∧ s ∈ spellings y m d)
  ∧ (∀ y m d, 0 ≤ y ≤ 9999 → 0 ≤ m ≤ 99 → 0 ≤ d ≤ 99 →
       validate_birthday (iso_text y m d) = valid_date y m d)
  ∧ validate_birthday "2021-02-29" = false
  ∧ validate_birthday "2020-02-29" = true
  ∧ validate_birthday "2020-13-01" = false
  ∧ (∀ o s, is_Some (new_Birthday o s) ↔ validate_birthday s = true).
Proof.
  split.
  { intros s (y & m & d & Hv & Hs). split; [by eapply spellings_ascii|].
    by eapply validate_birthday_complete. }
  split; [intros s _; apply validate_birthday_sound|].
  split; [apply validate_birthday_iso|].
  split; [reflexivity|]. split; [reflexivity|]. split; [reflexivity|].
  intros o s. unfold new_Birthday. destruct (validate_birthday s).
  - split; [done|]. by eexists.
  - split; [by intros [? ?]|done].
Qed.

Lemma validate_birthday_spec_witness :
  validate_birthday (iso_text 2024 2 29) = true
  ∧ (∃ y m d, valid_date y m d = true ∧ "2020-2- 9" ∈ spellings y m d)
  ∧ validate_birthday "2020-02-09" = true.
Proof.
  destruct validate_birthday_spec as (Hif & Honly & Hiso & _).
  split; [|split].
  - rewrite Hiso by lia. reflexivity.
  - apply Honly; reflexivity.
  - apply Hif. exists 2020, 2, 9. split; [reflexivity|].
    vm_compute. do 4 right. left.
Defined.

(** ** Days to the next birthday *)

Lemma strptime_midnight s dt :
  strptime s = Some dt →
  hour dt = 0 ∧ minute dt = 0 ∧ second dt = 0 ∧ microsecond dt = 0.
Proof.
  unfold strptime.
  destruct (head (format_matches s)) as [[[[y m] d] rest]|]; [|done].
  destruct (negb (String.eqb rest "")); [done|].
  destruct (valid_date y m d); [|done]. by intros [= <-].
Qed.

Lemma replace_year_fields dt y dt' :
  replace_year dt y = Some dt' →
  year dt' = y ∧ month dt' = month dt ∧ day dt' = day dt ∧ hour dt' = hour dt
  ∧ minute dt' = minute dt ∧ second dt' = second dt
  ∧ microsecond dt' = microsecond dt.
Proof.
  unfold replace_year. destruct (valid_date y (month dt) (day dt)); [|done].
  by intros [= <-].
Qed.

Lemma replace_year_twice dt y dt' y' :
  replace_year dt y = Some dt' → replace_year dt' y' = replace_year dt y'.
Proof.
  unfold replace_year. destruct (valid_date y (month dt) (day dt)); [|done].
  by intros [= <-].
Qed.

Lemma sub_days_midnight a b :
  hour a = 0 → minute a = 0 → second a = 0 → microsecond a = 0 →
  hour b = 0 → minute b = 0 → second b = 0 → microsecond b = 0 →
  sub_days a b = toordinal a - toordinal b.
Proof.
  intros. unfold sub_days.
  replace (((toordinal a - toordinal b) * 86400
            + (second a + minute a * 60 + hour a * 3600
               - (second b + minute b * 60 + hour b * 3600))) * 1000000
           + (microsecond a - microsecond b))
    with ((toordinal a - toordinal b) * (86400 * 1000000)) by lia.
  by apply Z.div_mul.
Qed.

(** When [now] carries no time of day, the method computes the date-only
    count of the specification. *)
Lemma days_to_birthday_at_midnight r bd bday today :
  rec_birthday r = Some bd → value bd ≠ "" → strptime (value bd) = Some bday →
  hour today = 0 → minute today = 0 → second today = 0 → microsecond today = 0 →
  days_to_birthday r today =
  match spec_days_to_next_birthday bday today with
  | Some n => Days n
  | None => DaysValueError
  end.
Proof.
  intros Hb Hne Hp H1 H2 H3 H4.
  unfold days_to_birthday, spec_days_to_next_birthday. rewrite Hb, Hp.
  apply String.eqb_neq in Hne. rewrite Hne.
  assert (date_only today = today) as ->
    by (destruct today; simpl in *; by subst).
  destruct (strptime_midnight _ _ Hp) as (B1 & B2 & B3 & B4).
  destruct (replace_year bday (year today)) as [nb|] eqn:E; [|done].
  destruct (replace_year_fields _ _ _ E) as (_ & _ & _ & N1 & N2 & N3 & N4).
  rewrite (replace_year_twice _ _ _ (year today + 1) E).
  destruct (dt_gt today nb).
  - destruct (replace_year bday (year today + 1)) as [nb'|] eqn:E'; [|done].
    destruct (replace_year_fields _ _ _ E') as (_ & _ & _ & M1 & M2 & M3 & M4).
    rewrite sub_days_midnight; [done|congruence..].
  - rewrite sub_days_midnight; [done|congruence..].
Qed.

(** A birthday on 29 February makes the method raise in every year that
    is not a leap year. *)
Lemma days_to_birthday_feb29_common_year today :
  is_leap (year today) = false →
  days_to_birthday (born "2020-02-29") today = DaysValueError.
Proof.
  intros H. unfold days_to_birthday, born; simpl.
  change (strptime "2020-02-29") with (Some (mkDT 2020 2 29 0 0 0 0)).
  unfold replace_year, valid_date, days_in_month; simpl. rewrite H.
  by rewrite !andb_false_r.
Qed.

(** C4, where the code departs from it. For a birthday on 15 June and [now]
    = 15 June 2024, 10:00, the method returns 364 where the date-only count
    is 0; for [now] = 14 June 2024, 10:00, it returns 0 where the count is
    1: the time of day of [datetime.now()] enters both the comparison and
    the difference. *)
Theorem days_to_birthday_time_of_day :
  strptime "1990-06-15" = Some (mkDT 1990 6 15 0 0 0 0)
  ∧ days_to_birthday (born "1990-06-15") june_15_at_10 = Days 364
  ∧ spec_days_to_next_birthday (mkDT 1990 6 15 0 0 0 0) june_15_at_10 = Some 0
  ∧ days_to_birthday (born "1990-06-15") june_14_at_10 = Days 0
  ∧ spec_days_to_next_birthday (mkDT 1990 6 15 0 0 0 0) june_14_at_10 = Some 1.
Proof. repeat split; reflexivity. Qed.

(** C5, where the code departs from it. ["2020-02-29"] is a valid
    [Birthday], yet for [now] in 2023 the method raises [ValueError]
    ([replace(year=2023)] has no 29 February), and so it does on 1 March
    2024, when the occurrence is moved to 2025. *)
Theorem days_to_birthday_feb29_raises :
  new_Birthday 31 "2020-02-29" = Some (mkField 31 "2020-02-29")
  ∧ days_to_birthday (born "2020-02-29") new_year_2023 = DaysValueError
  ∧ days_to_birthday (born "2020-02-29") march_1_2024 = DaysValueError.
Proof. repeat split; reflexivity. Qed.

(** * Further properties of the module *)

(** ** Phone and email validation *)

Lemma append_assoc s1 s2 s3 : (s1 +:+ s2) +:+ s3 = s1 +:+ (s2 +:+ s3).
Proof.
  induction s1 as [|a s1 IH]; [done|]. by rewrite !append_cons, IH.
Qed.

Lemma re_dollar_spec s :
  re_dollar s = true ↔ s = "" ∨ s = String newline "".
Proof.
  unfold re_dollar. by rewrite orb_true_iff, !String.eqb_eq.
Qed.

Lemma re_lit_elem c s rest : rest ∈ re_lit c s ↔ s = String c rest.
Proof.
  split; [apply re_lit_inv|]. intros ->. simpl.
  rewrite Ascii.eqb_refl. left.
Qed.

Lemma re_digits_elem n s rest :
  rest ∈ re_digits n s ↔
  ∃ ds, String.length ds = n ∧ all_chars is_digit ds = true ∧ s = ds +:+ rest.
Proof.
  revert s. induction n as [|n IH]; intros s; simpl.
  - rewrite list_elem_of_singleton. split.
    + intros ->. by exists "".
    + intros ([|? ?] & Hl & _ & ->); [done|discriminate Hl].
  - destruct s as [|a s].
    + split; [by intros ?%elem_of_nil|].
      intros ([|? ?] & Hl & _ & Hs); [discriminate Hl|].
      by rewrite append_cons in Hs.
    + destruct (is_digit a) eqn:Ea.
      * rewrite IH. split.
        -- intros (ds & Hl & Hd & ->). exists (String a ds).
           simpl. rewrite Ea, Hd, Hl. by rewrite append_cons.
        -- intros ([|a' ds] & Hl & Hd & Hs); [discriminate Hl|].
           rewrite append_cons in Hs. injection Hs as -> ->.
           simpl in Hl, Hd. apply andb_true_iff in Hd as [_ Hd].
           exists ds. split; [lia|done].
      * split; [by intros ?%elem_of_nil|].
        intros ([|a' ds] & Hl & Hd & Hs); [discriminate Hl|].
        rewrite append_cons in Hs. injection Hs as -> ->.
        simpl in Hd. by rewrite Ea in Hd.
Qed.

Lemma validate_phone_iff s :
  validate_phone s = true ↔
  ∃ ds, String.length ds = 9%nat ∧ all_chars is_digit ds = true
        ∧ (s = ds ∨ s = ds +:+ String newline "").
Proof.
  unfold validate_phone. rewrite existsb_exists. split.
  - intros (rest & Hin & Hd). apply list_elem_of_In, re_digits_elem in Hin
      as (ds & Hl & Hds & ->).
    exists ds. split; [done|]. split; [done|].
    apply re_dollar_spec in Hd as [->| ->]; [left; by rewrite append_nil_r|by right].
  - intros (ds & Hl & Hds & [->| ->]).
    + exists "". split; [|done]. apply list_elem_of_In, re_digits_elem.
      exists ds. by rewrite append_nil_r.
    + exists (String newline ""). split; [|done].
      apply list_elem_of_In, re_digits_elem. by exists ds.
Qed.

Lemma digits_ascii ds : all_chars is_digit ds = true → is_ascii ds = true.
Proof.
  induction ds as [|a ds IH]; [done|]. simpl.
  intros [Ha Hds]%andb_true_iff. rewrite IH by done.
  unfold is_digit, digit in Ha.
  destruct ((48 <=? Z.of_nat (nat_of_ascii a))
            && (Z.of_nat (nat_of_ascii a) <=? 57)) eqn:E; [|done].
  apply andb_true_iff in E as [_ E%Z.leb_le].
  rewrite andb_true_r. apply Nat.ltb_lt. lia.
Qed.

(** X1. Among the strings of ASCII characters, [validate_phone] accepts
    exactly the strings of nine decimal digits and those strings followed
    by one newline (the [$] of the pattern also matches before a final
    newline); all of these are ASCII text and are accepted. *)
Theorem validate_phone_spec s :
  ((∃ ds, String.length ds = 9%nat ∧ all_chars is_digit ds = true
          ∧ (s = ds ∨ s = ds +:+ String newline "")) →
   is_ascii s = true ∧ validate_phone s = true)
  ∧ (is_ascii s = true → validate_phone s = true →
     ∃ ds, String.length ds = 9%nat ∧ all_chars is_digit ds = true
           ∧ (s = ds ∨ s = ds +:+ String newline "")).
Proof.
  split.
  - intros (ds & Hl & Hds & Hs). split.
    + destruct Hs as [->| ->]; [by apply digits_ascii|].
      rewrite is_ascii_app, digits_ascii by done. reflexivity.
    + apply validate_phone_iff. by exists ds.
  - intros _. apply validate_phone_iff.
Qed.

Lemma validate_phone_spec_witness :
  (∃ ds, String.length ds = 9%nat ∧ all_chars is_digit ds = true
         ∧ ("123456789" +:+ String newline "" = ds
            ∨ "123456789" +:+ String newline "" = ds +:+ String newline ""))
  ∧ validate_phone "123456789" = true.
Proof.
  split.
  - apply (proj2 (validate_phone_spec _)); reflexivity.
  - apply (proj1 (validate_phone_spec "123456789")). exists "123456789".
    split; [reflexivity|]. split; [reflexivity|]. by left.
Defined.

Lemma re_star_elem cls s rest :
  rest ∈ re_star cls s ↔ ∃ pre, all_chars cls pre = true ∧ s = pre +:+ rest.
Proof.
  induction s as [|a s IH]; simpl.
  - rewrite list_elem_of_singleton. split.
    + intros ->. by exists "".
    + intros ([|? ?] & _ & Hs); [done|]. by rewrite append_cons in Hs.
  - destruct (cls a) eqn:Ea.
    + rewrite elem_of_app, list_elem_of_singleton, IH. split.
      * intros [(pre & Hp & ->)| ->].
        -- exists (String a pre). simpl. by rewrite Ea, Hp, append_cons.
        -- by exists "".
      * intros ([|a' pre] & Hp & Hs); [by right|].
        rewrite append_cons in Hs. injection Hs as -> ->.
        simpl in Hp. apply andb_true_iff in Hp as [_ Hp].
        left. by exists pre.
    + rewrite list_elem_of_singleton. split.
      * intros ->. by exists "".
      * intros ([|a' pre] & Hp & Hs); [done|].
        rewrite append_cons in Hs. injection Hs as -> ->.
        simpl in Hp. by rewrite Ea in Hp.
Qed.

Lemma re_plus_elem cls s rest :
  rest ∈ re_plus cls s ↔
  ∃ pre, pre ≠ "" ∧ all_chars cls pre = true ∧ s = pre +:+ rest.
Proof.
  destruct s as [|a s]; simpl.
  - split; [by intros ?%elem_of_nil|].
    intros ([|? ?] & Hne & _ & Hs); [done|]. by rewrite append_cons in Hs.
  - destruct (cls a) eqn:Ea.
    + rewrite re_star_elem. split.
      * intros (pre & Hp & ->). exists (String a pre).
        simpl. by rewrite Ea, Hp, append_cons.
      * intros ([|a' pre] & Hne & Hp & Hs); [done|].
        rewrite append_cons in Hs. injection Hs as -> ->.
        simpl in Hp. apply andb_true_iff in Hp as [_ Hp]. by exists pre.
    + split; [by intros ?%elem_of_nil|].
      intros ([|a' pre] & Hne & Hp & Hs); [done|].
      rewrite append_cons in Hs. injection Hs as -> ->.
      simpl in Hp. by rewrite Ea in Hp.
Qed.

Lemma email_regex_matches_elem s e :
  e ∈ email_regex_matches s ↔
  ∃ l d t, l ≠ "" ∧ d ≠ "" ∧ t ≠ ""
           ∧ all_chars email_local_char l = true
           ∧ all_chars email_label_char d = true
           ∧ all_chars email_tail_char t = true
           ∧ (e = "" ∨ e = String newline "")
           ∧ s = l +:+ "@" +:+ d +:+ "." +:+ t +:+ e.
Proof.
  unfold email_regex_matches. split.
  - intros (r1 & H & (l & Hl & Hlc & ->)%re_plus_elem)%list_elem_of_bind.
    apply list_elem_of_bind in H as (r2 & H & ->%re_lit_elem).
    apply list_elem_of_bind in H as (r3 & H & (d & Hd & Hdc & ->)%re_plus_elem).
    apply list_elem_of_bind in H as (r4 & H & ->%re_lit_elem).
    apply list_elem_of_bind in H as (r5 & H & (t & Ht & Htc & ->)%re_plus_elem).
    destruct (re_dollar r5) eqn:E; [|by apply elem_of_nil in H].
    apply list_elem_of_singleton in H as ->. apply re_dollar_spec in E.
    by exists l, d, t.
  - intros (l & d & t & Hl & Hd & Ht & Hlc & Hdc & Htc & He & ->).
    apply list_elem_of_bind. exists ("@" +:+ d +:+ "." +:+ t +:+ e).
    split; [|apply re_plus_elem; by exists l].
    apply list_elem_of_bind. exists (d +:+ "." +:+ t +:+ e).
    split; [|by apply re_lit_elem].
    apply list_elem_of_bind. exists ("." +:+ t +:+ e).
    split; [|apply re_plus_elem; by exists d].
    apply list_elem_of_bind. exists (t +:+ e).
    split; [|by apply re_lit_elem].
    apply list_elem_of_bind. exists e.
    split; [|apply re_plus_elem; by exists t].
    apply re_dollar_spec in He. rewrite He. left.
Qed.

(** X2. [validate_email] accepts exactly the strings [l@d.t], optionally
    followed by one newline, where [l], [d] and [t] are non-empty, [l]
    consists of letters, digits and [_.+-], [d] of letters, digits and
    [-], and [t] of letters, digits, [-] and [.]. *)
Theorem validate_email_spec s :
  validate_email s = true ↔
  ∃ l d t e, l ≠ "" ∧ d ≠ "" ∧ t ≠ ""
             ∧ all_chars email_local_char l = true
             ∧ all_chars email_label_char d = true
             ∧ all_chars email_tail_char t = true
             ∧ (e = "" ∨ e = String newline "")
             ∧ s = l +:+ "@" +:+ d +:+ "." +:+ t +:+ e.
Proof.
  unfold validate_email. split.
  - destruct (email_regex_matches s) as [|e rest] eqn:E; [done|]. intros _.
    assert (e ∈ email_regex_matches s) as He by (rewrite E; left).
    apply email_regex_matches_elem in He as (l & d & t & H). by exists l, d, t, e.
  - intros (l & d & t & e & H).
    assert (e ∈ email_regex_matches s) as He
      by (apply email_regex_matches_elem; by exists l, d, t).
    destruct (email_regex_matches s); [by apply elem_of_nil in He|done].
Qed.

Lemma validate_email_spec_witness : validate_email "ann.lee@mail-x.co.uk" = true.
Proof.
  apply validate_email_spec. exists "ann.lee", "mail-x", "co.uk", "".
  repeat split; try done. by left.
Defined.

(** ** Parsing a birthday *)

Lemma strptime_inv s dt :
  strptime s = Some dt →
  ∃ y m d, valid_date y m d = true ∧ s ∈ spellings y m d
           ∧ dt = mkDT y m d 0 0 0 0.
Proof.
  unfold strptime.
  destruct (head (format_matches s)) as [[[[y m] d] rest]|] eqn:E; [|done].
  destruct (String.eqb rest "") eqn:Er; [|done]. simpl.
  destruct (valid_date y m d) eqn:Ev; [|done]. intros [= <-].
  apply String.eqb_eq in Er as ->.
  apply head_Some_elem_of, format_matches_inv in E
    as (_ & _ & _ & ms & ds & Hms & Hds & ->).
  exists y, m, d. split; [done|]. split; [|done]. unfold spellings.
  apply list_elem_of_bind. exists ms. split; [|done].
  apply list_elem_of_bind. exists ds. split; [|done].
  rewrite append_nil_r. left.
Qed.

Lemma strptime_complete y m d s :
  valid_date y m d = true → s ∈ spellings y m d →
  strptime s = Some (mkDT y m d 0 0 0 0).
Proof.
  intros Hv Hs.
  pose proof (valid_date_range _ _ _ Hv) as (Hy & Hm & Hd).
  unfold spellings in Hs. apply list_elem_of_bind in Hs as (ms & Hs & Hms).
  apply list_elem_of_bind in Hs as (ds & Hs & Hds).
  apply list_elem_of_singleton in Hs as ->.
  unfold strptime.
  rewrite (format_matches_head y _ (m, d, "")); [|lia|by apply md_matches_complete].
  simpl. by rewrite Hv.
Qed.

(** X3. The call [datetime.strptime(value, "%Y-%m-%d")] made by
    [Birthday.validate_birthday] and by [days_to_birthday]: on every
    accepted spelling of a real date it returns that date at midnight;
    for a string of ASCII characters it returns a value only on such a
    spelling, so on ASCII text it raises [ValueError] exactly when the
    string is no accepted spelling of a real date; and for every
    [Birthday] the constructor accepted, the parse in [days_to_birthday]
    succeeds and gives a real date at midnight. *)
Theorem strptime_spec s :
  (∀ y m d, valid_date y m d = true → s ∈ spellings y m d →
            strptime s = Some (mkDT y m d 0 0 0 0))
  ∧ (is_ascii s = true →
     (∀ dt, strptime s = Some dt →
            ∃ y m d, valid_date y m d = true ∧ s ∈ spellings y m d
                     ∧ dt = mkDT y m d 0 0 0 0)
     ∧ (strptime s = None ↔
        ¬ ∃ y m d, valid_date y m d = true ∧ s ∈ spellings y m d))
  ∧ (∀ o bd, new_Birthday o s = Some bd →
       ∃ y m d, valid_date y m d = true
                ∧ strptime (value bd) = Some (mkDT y m d 0 0 0 0)).
Proof.
  split; [intros y m d; apply strptime_complete|]. split.
  - intros _. split; [intros dt; apply strptime_inv|]. split.
    + intros Hn (y & m & d & Hv & Hs).
      by rewrite (strptime_complete _ _ _ _ Hv Hs) in Hn.
    + intros Hno. destruct (strptime s) as [dt|] eqn:E; [|done].
      exfalso. apply Hno.
      destruct (strptime_inv _ _ E) as (y & m & d & ? & ? & _).
      by exists y, m, d.
  - intros o bd. unfold new_Birthday, validate_birthday.
    destruct (strptime s) as [dt|] eqn:E; [|done]. intros [= <-]. simpl.
    destruct (strptime_inv _ _ E) as (y & m & d & Hv & _ & ->).
    by exists y, m, d.
Qed.

Lemma strptime_spec_witness :
  strptime "2020-2- 9" = Some (mkDT 2020 2 9 0 0 0 0)
  ∧ (∃ y m d, valid_date y m d = true ∧ "2020-02-09" ∈ spellings y m d
              ∧ mkDT 2020 2 9 0 0 0 0 = mkDT y m d 0 0 0 0)
  ∧ ∃ y m d, valid_date y m d = true
             ∧ strptime "2020-02-29" = Some (mkDT y m d 0 0 0 0).
Proof.
  split; [|split].
  - apply (proj1 (strptime_spec "2020-2- 9") 2020 2 9); [reflexivity|].
    vm_compute. do 2 right. left.
  - apply (proj1 (proj1 (proj2 (strptime_spec "2020-02-09")) eq_refl)).
    reflexivity.
  - apply (proj2 (proj2 (strptime_spec "2020-02-29")) 7%nat
             (mkField 7 "2020-02-29")).
    reflexivity.
Defined.

(** ** Deleting and re-inserting *)

Lemma filter_keys_ne (d : list (Z * loc)) k :
  k ∉ keys d → filter (fun kv : Z * loc => kv.1 ≠ k) d = d.
Proof.
  induction d as [|[k0 v0] d IH]; [done|]. unfold keys in *.
  rewrite fmap_cons, not_elem_of_cons. intros [Hne Hd].
  rewrite filter_cons_True by (simpl in *; congruence). by rewrite IH.
Qed.

Lemma dict_del_split (d : dict) k :
  NoDup (keys d) → k ∈ keys d →
  ∃ d1 l d2, d = d1 ++ (k, l) :: d2 ∧ dict_del d k = d1 ++ d2.
Proof.
  intros Hnd [l Hin]%elem_of_keys.
  apply list_elem_of_split in Hin as (d1 & d2 & ->).
  exists d1, l, d2. split; [done|].
  unfold keys in Hnd. rewrite fmap_app, fmap_cons in Hnd. simpl in Hnd.
  apply NoDup_app in Hnd as (_ & Hx & Hnd2).
  apply NoDup_cons in Hnd2 as [Hk2 _].
  assert (k ∉ keys d1) as Hk1.
  { intros Hk. apply (Hx _ Hk). left. }
  unfold dict_del, dict. rewrite filter_app, filter_cons_False by (simpl; tauto).
  by rewrite !filter_keys_ne.
Qed.

(** X4. [delete_record_by_id] changes nothing when the typed line is not
    a number or the number is not a key; for a key [k] it removes exactly
    the entry of [k], keeping the order of the others, moves [k] into
    [free_ids] and leaves [next_id] alone. *)
Theorem delete_record_by_id_spec b :
  delete_record_by_id b None = b
  ∧ (∀ k, k ∉ keys (data b) → delete_record_by_id b (Some k) = b)
  ∧ (∀ k, NoDup (keys (data b)) → k ∈ keys (data b) →
       let b' := delete_record_by_id b (Some k) in
       (∃ d1 l d2, data b = d1 ++ (k, l) :: d2 ∧ data b' = d1 ++ d2)
       ∧ (k ∉ keys (data b'))
       ∧ free_ids b' = {[k]} ∪ free_ids b
       ∧ next_id b' = next_id b).
Proof.
  split; [done|]. split.
  - intros k Hk. simpl. by rewrite (proj2 (dict_mem_false _ _) Hk).
  - intros k Hnd Hk b'. subst b'. simpl.
    rewrite (proj2 (dict_mem_true _ _) Hk). simpl.
    split; [by apply dict_del_split|]. split; [|done].
    rewrite keys_dict_del. tauto.
Qed.

Lemma delete_record_by_id_spec_witness :
  let b := (run (new_book, bobs) [Insert 1%nat; Insert 2%nat; Insert 3%nat]).1 in
  data (delete_record_by_id b (Some 2)) = [(1, 1%nat); (3, 3%nat)]
  ∧ free_ids (delete_record_by_id b (Some 2)) = {[2]} ∪ free_ids b.
Proof.
  intros b.
  destruct (delete_record_by_id_spec b) as (_ & _ & H).
  destruct (H 2) as (_ & _ & Hf & _).
  - vm_compute. repeat constructor; intros Hx;
      repeat (apply elem_of_cons in Hx as [Hx|Hx]; [discriminate Hx|]);
      by apply elem_of_nil in Hx.
  - vm_compute. right. left.
  - split; [reflexivity|exact Hf].
Defined.

Lemma add_record_id_stored b h l :
  (add_record b h l).1.1 ∈ keys (data (add_record b h l).1.2).
Proof. rewrite add_record_data, keys_dict_set. by left. Qed.

Lemma set_min_singleton_union (s : gset Z) k :
  is_min k ({[k]} ∪ s) → set_min ({[k]} ∪ s) = k.
Proof.
  intros H. eapply is_min_unique; [|exact H]. apply set_min_spec. set_solver.
Qed.

(** X5. Inserting a record, deleting the id it received and inserting
    again hands out the same id; when [free_ids] is disjoint from the
    keys, the delete also restores the entries as they were before the
    first insert. *)
Theorem insert_delete_insert b h l l' :
  let r := add_record b h l in
  let b2 := delete_record_by_id r.1.2 (Some r.1.1) in
  (add_record b2 r.2 l').1.1 = r.1.1
  ∧ (free_disjoint b → data b2 = data b).
Proof.
  intros r b2. subst r b2. simpl.
  rewrite (proj2 (dict_mem_true _ _) (add_record_id_stored b h l)).
  split.
  - assert (({[(add_record b h l).1.1]} ∪ free_ids (add_record b h l).1.2 : gset Z) ≠ ∅)
      as Hne by set_solver.
    rewrite add_record_free_nonempty by done. simpl.
    apply set_min_singleton_union.
    destruct (decide (free_ids b = ∅)) as [He|Hn].
    + rewrite add_record_free_empty by done. simpl. split; [set_solver|].
      intros y Hy. assert (y = advanced_next_id b) as -> by set_solver. lia.
    + rewrite add_record_free_nonempty by done. simpl.
      destruct (set_min_spec _ Hn) as [Hin Hle]. split; [set_solver|].
      intros y Hy. apply Hle. set_solver.
  - intros Hd. simpl. rewrite add_record_data.
    pose proof (add_record_new_key b h l Hd) as Hnew.
    rewrite dict_set_new by done. unfold dict_del, dict.
    rewrite filter_app, filter_keys_ne by done.
    rewrite filter_cons_False by (simpl; tauto). by rewrite app_nil_r.
Qed.

Lemma insert_delete_insert_witness :
  let r := add_record two_minus_first.1 two_minus_first.2 3%nat in
  data (delete_record_by_id r.1.2 (Some r.1.1)) = data two_minus_first.1.
Proof.
  intros r.
  apply (insert_delete_insert two_minus_first.1 two_minus_first.2 3%nat 4%nat).
  apply run_disjoint, new_book_disjoint.
Defined.

(** X6. After the entry of id [k] is deleted, the next insert receives a
    released id that is at most [k]. *)
Theorem delete_then_insert_reuses b h k l :
  k ∈ keys (data b) →
  let b' := delete_record_by_id b (Some k) in
  (add_record b' h l).1.1 ≤ k ∧ (add_record b' h l).1.1 ∈ free_ids b'.
Proof.
  intros Hk b'. subst b'. simpl.
  rewrite (proj2 (dict_mem_true _ _) Hk).
  assert (({[k]} ∪ free_ids b : gset Z) ≠ ∅) as Hne by set_solver.
  rewrite add_record_free_nonempty by done. simpl.
  destruct (set_min_spec _ Hne) as [Hin Hle]. split; [|done].
  apply Hle. set_solver.
Qed.

Lemma delete_then_insert_reuses_witness :
  let b := (run (new_book, bobs) [Insert 1%nat; Insert 2%nat; Insert 3%nat]).1 in
  (add_record (delete_record_by_id b (Some 2)) bobs 4%nat).1.1 ≤ 2.
Proof.
  intros b. apply (delete_then_insert_reuses b bobs 2 4%nat).
  vm_compute. right. left.
Defined.

(** ** Invariants of reachable stores *)

Lemma reachable_keys_nodup s : reachable s → NoDup (keys (data s.1)).
Proof.
  intros (h & ops & ->). apply run_keys_nodup. simpl. apply NoDup_nil_2.
Qed.

(** X7. In every store reachable from a fresh one by inserts and deletes
    the keys are pairwise different, no key is in [free_ids], the keys and
    the released ids together are exactly [1 .. next_id - 1], and so the
    number of entries plus the number of released ids is [next_id - 1]. *)
Theorem reachable_ids_dense s :
  reachable s →
  NoDup (keys (data s.1))
  ∧ free_disjoint s.1
  ∧ (∀ k, k ∈ keys (data s.1) ∨ k ∈ free_ids s.1 ↔ 1 ≤ k < next_id s.1)
  ∧ Z.of_nat (length (data s.1)) + Z.of_nat (size (free_ids s.1))
    = next_id s.1 - 1.
Proof.
  intros Hr. pose proof (reachable_keys_nodup _ Hr) as Hnd.
  pose proof (reachable_disjoint _ Hr) as Hdisj.
  destruct (reachable_dense _ Hr) as [H1 Hd].
  assert (∀ k, k ∈ keys (data s.1) ∨ k ∈ free_ids s.1 ↔ 1 ≤ k < next_id s.1)
    as Hall by (intros k; by rewrite <- reserved_true, Hd).
  split; [done|]. split; [done|]. split; [done|].
  assert (reserved_list s.1 ≡ₚ seqZ 1 (next_id s.1 - 1)) as Hp.
  { apply NoDup_Permutation.
    - unfold reserved_list. apply NoDup_app. split; [done|].
      split; [|apply NoDup_elements].
      intros k Hk ?%elem_of_elements. by apply (Hdisj k).
    - apply NoDup_seqZ.
    - intros k. rewrite <- reserved_elem, Hd, elem_of_seqZ. lia. }
  apply Permutation_length in Hp.
  rewrite length_seqZ in Hp. unfold reserved_list, keys in Hp.
  rewrite length_app, length_fmap in Hp. unfold size, set_size. simpl. lia.
Qed.

Lemma reachable_ids_dense_witness :
  Z.of_nat (length (data two_minus_first.1))
  + Z.of_nat (size (free_ids two_minus_first.1)) = next_id two_minus_first.1 - 1.
Proof.
  apply (reachable_ids_dense two_minus_first).
  exists bobs, [Insert 1%nat; Insert 2%nat; Delete (Some 1)]. reflexivity.
Defined.

Lemma add_record_effect b h l :
  free_disjoint b →
  let r := add_record b h l in
  (r.1.1 ∉ keys (data b))
  ∧ data r.1.2 = data b ++ [(r.1.1, l)]
  ∧ values (data r.1.2) = values (data b) ++ [l]
  ∧ rec_id (r.2 l) = Some r.1.1
  ∧ (∀ l', l' ≠ l → r.2 l' = h l').
Proof.
  intros Hd r. subst r.
  pose proof (add_record_new_key b h l Hd) as Hnew.
  split; [done|]. rewrite add_record_data, dict_set_new by done.
  split; [done|]. split; [unfold values; by rewrite fmap_app|].
  rewrite add_record_heap. split; [apply set_id_same|].
  intros l' Hl. by apply set_id_other.
Qed.

(** X8. In a store whose [free_ids] is disjoint from its keys, so in every
    reachable store and every store reached after loading, [add_record]
    overwrites nothing: the record is appended as the last entry under an
    id that was not a key, and its [id] field holds that id. *)
Theorem add_record_appends b h l :
  free_disjoint b →
  let r := add_record b h l in
  (r.1.1 ∉ keys (data b))
  ∧ data r.1.2 = data b ++ [(r.1.1, l)]
  ∧ values (data r.1.2) = values (data b) ++ [l]
  ∧ rec_id (r.2 l) = Some r.1.1
  ∧ (∀ l', l' ≠ l → r.2 l' = h l').
Proof. apply add_record_effect. Qed.

Lemma add_record_appends_witness :
  data (add_record two_minus_first.1 two_minus_first.2 3%nat).1.2
  = data two_minus_first.1 ++ [(1, 3%nat)].
Proof.
  apply (add_record_appends two_minus_first.1 two_minus_first.2 3%nat).
  apply run_disjoint, new_book_disjoint.
Defined.

Lemma dict_del_values_sublist (d : dict) k : values (dict_del d k) `sublist_of` values d.
Proof. unfold values, dict_del. apply fmap_sublist, sublist_filter. Qed.

Lemma run_values_nodup s ops :
  distinct_inserts s ops → free_disjoint s.1 → NoDup (values (data s.1)) →
  NoDup (values (data (run s ops).1)).
Proof.
  revert s. induction ops as [|o ops IH]; intros [b h] Hf Hd Hnd; [done|].
  destruct Hf as [Ho Hf]. apply IH; [done| |].
  - destruct o as [l|p]; [rewrite run_op_add; by apply add_record_disjoint|].
    by apply delete_disjoint.
  - destruct o as [l|p].
    + rewrite run_op_add. simpl in *.
      destruct (add_record_effect b h l Hd) as (_ & _ & -> & _).
      apply NoDup_app. split; [done|]. split; [|apply NoDup_singleton].
      intros x Hx ->%list_elem_of_singleton. done.
    + simpl in *. destruct p as [k0|]; simpl; [|done].
      destruct (dict_mem k0 (data b)); [|done]. simpl.
      by apply (sublist_NoDup _ _ Hnd), dict_del_values_sublist.
Qed.

Lemma keys_nodup_functional (d : dict) k l1 l2 :
  NoDup (keys d) → (k, l1) ∈ d → (k, l2) ∈ d → l1 = l2.
Proof.
  induction d as [|[k0 v0] d IH]; [by intros _ ?%elem_of_nil|].
  unfold keys in *. rewrite fmap_cons, NoDup_cons, !elem_of_cons. simpl.
  intros [Hk0 Hnd] [E1|H1] [E2|H2]; [congruence| | |by apply IH].
  - exfalso. apply Hk0, list_elem_of_fmap. exists (k, l2).
    split; [simpl; congruence|done].
  - exfalso. apply Hk0, list_elem_of_fmap. exists (k, l1).
    split; [simpl; congruence|done].
Qed.

(** X9. When every insert is given a record object that is not stored at
    that moment, the stored objects are pairwise different and no two
    entries carry the same [id]: equal [id] fields mean the same entry. *)
Theorem stored_ids_unique h ops :
  distinct_inserts (new_book, h) ops →
  let s := run (new_book, h) ops in
  NoDup (values (data s.1))
  ∧ ∀ k1 l1 k2 l2, (k1, l1) ∈ data s.1 → (k2, l2) ∈ data s.1 →
      rec_id (s.2 l1) = rec_id (s.2 l2) → k1 = k2 ∧ l1 = l2.
Proof.
  intros Hf s. subst s.
  assert (NoDup (values (data (run (new_book, h) ops).1))) as Hv.
  { apply run_values_nodup; [done|apply new_book_disjoint|apply NoDup_nil_2]. }
  split; [done|]. intros k1 l1 k2 l2 H1 H2 Hid.
  pose proof (run_key_is_id _ _ Hf (new_book_key_is_id h)) as Hk.
  rewrite (Hk _ _ H1), (Hk _ _ H2) in Hid. injection Hid as ->.
  split; [done|].
  assert (NoDup (keys (data (run (new_book, h) ops).1))) as Hnd
    by (apply run_keys_nodup; apply NoDup_nil_2).
  by apply (keys_nodup_functional _ k2 l1 l2 Hnd).
Qed.

Lemma stored_ids_unique_witness :
  NoDup (values (data (run (new_book, bobs)
           [Insert 1%nat; Insert 2%nat; Delete (Some 1); Insert 1%nat]).1)).
Proof.
  apply (stored_ids_unique bobs
           [Insert 1%nat; Insert 2%nat; Delete (Some 1); Insert 1%nat]).
  repeat split; vm_compute; intros H;
    repeat (apply elem_of_cons in H as [H|H]; [discriminate H|]);
    by apply elem_of_nil in H.
Defined.

(** ** Search by name and by text *)

Lemma lower_empty : lower "" = "".
Proof. done. Qed.

Lemma str_in_empty s : str_in "" s = true.
Proof. rewrite str_in_unfold. by destruct s. Qed.

Lemma name_matches_empty r : name_matches "" r = true.
Proof. unfold name_matches. rewrite lower_empty. apply str_in_empty. Qed.

Lemma find_by_name_loop h name (d acc : list (Z * loc)) :
  foldl (fun matching kv =>
           if str_in (lower name) (lower (value (rec_name (h kv.2))))
           then matching ++ [kv] else matching) acc d
  = acc ++ filter (fun kv => name_matches name (h kv.2) = true) d.
Proof.
  revert acc. induction d as [|kv d IH]; intros acc; simpl.
  - by rewrite app_nil_r.
  - rewrite IH. unfold name_matches at 2.
    destruct (str_in (lower name) (lower (value (rec_name (h kv.2))))) eqn:E.
    + rewrite filter_cons_True by done. by rewrite <- app_assoc.
    + rewrite filter_cons_False; [done|]. unfold name_matches. by rewrite E.
Qed.

Lemma find_records_by_name_filter b h name :
  find_records_by_name b h name
  = filter (fun kv => name_matches name (h kv.2) = true) (data b).
Proof. unfold find_records_by_name, dict. by rewrite find_by_name_loop. Qed.

(** *** The name test, character by character *)

Lemma ascii_code_inj a b : nat_of_ascii a = nat_of_ascii b → a = b.
Proof.
  intros H. rewrite <- (ascii_nat_embedding a), <- (ascii_nat_embedding b).
  by rewrite H.
Qed.

Lemma lower_char_code c :
  nat_of_ascii (lower_char c)
  = if ((65 <=? nat_of_ascii c) && (nat_of_ascii c <=? 90))%nat
    then (nat_of_ascii c + 32)%nat else nat_of_ascii c.
Proof.
  unfold lower_char.
  destruct ((65 <=? nat_of_ascii c) && (nat_of_ascii c <=? 90))%nat eqn:E;
    [|done].
  apply andb_true_iff in E as [_ E%Nat.leb_le].
  apply nat_ascii_embedding. lia.
Qed.

Ltac split_tests :=
  repeat match goal with
  | |- context [(?x <=? ?y)%nat] => destruct (Nat.leb_spec x y)
  | |- context [(?x =? ?y)%nat] => destruct (Nat.eqb_spec x y)
  | H : context [(?x <=? ?y)%nat] |- _ => destruct (Nat.leb_spec x y)
  | H : context [(?x =? ?y)%nat] |- _ => destruct (Nat.eqb_spec x y)
  end.

Lemma lower_char_same a b :
  lower_char a = lower_char b ↔ same_letter a b = true.
Proof.
  unfold same_letter, is_letter. split.
  - intros H%(f_equal nat_of_ascii). rewrite !lower_char_code in H.
    destruct (Ascii.eqb a b) eqn:E; [done|]. apply Ascii.eqb_neq in E.
    assert (nat_of_ascii a ≠ nat_of_ascii b) as Hne
      by (intros ?; apply E; by apply ascii_code_inj).
    cbn [orb]. revert H Hne. generalize (nat_of_ascii a) (nat_of_ascii b). intros n m H Hne.
    split_tests; simpl in *; try done; lia.
  - destruct (Ascii.eqb a b) eqn:E; [apply Ascii.eqb_eq in E as ->; done|].
    cbn [orb]. intros H. apply ascii_code_inj. rewrite !lower_char_code.
    revert H. generalize (nat_of_ascii a) (nat_of_ascii b). intros n m H.
    split_tests; simpl in *; try done; lia.
Qed.

Lemma lower_same_text t m : lower t = lower m ↔ same_text t m = true.
Proof.
  revert m. induction t as [|a t IH]; intros [|b m]; simpl; try done.
  rewrite andb_true_iff, <- IH, <- lower_char_same. split.
  - by intros [= -> ->].
  - by intros [-> ->].
Qed.

Lemma lower_app s t : lower (s +:+ t) = lower s +:+ lower t.
Proof.
  induction s as [|a s IH]; [done|].
  rewrite append_cons. simpl. by rewrite IH, append_cons.
Qed.

Lemma lower_split s u v :
  lower s = u +:+ v → ∃ s1 s2, s = s1 +:+ s2 ∧ lower s1 = u ∧ lower s2 = v.
Proof.
  revert s. induction u as [|c u IH]; intros s.
  - rewrite append_nil. intros H. by exists "", s.
  - rewrite append_cons. destruct s as [|a s]; [done|]. simpl.
    intros [= Hc H]. destruct (IH _ H) as (s1 & s2 & -> & <- & <-).
    exists (String a s1), s2. by rewrite append_cons, <- Hc.
Qed.

(** [text.lower() in s.lower()] holds exactly when a piece of [s] agrees
    with [text] up to the case of ASCII letters. *)
Lemma name_test_spec text s :
  str_in (lower text) (lower s) = true ↔ occurs_ignoring_case text s.
Proof.
  rewrite str_in_spec. unfold occurs_ignoring_case. split.
  - intros (u & v & H).
    apply lower_split in H as (pre & rest & -> & <- & H).
    apply lower_split in H as (mid & post & -> & H & <-).
    exists pre, mid, post. split; [done|]. by apply lower_same_text.
  - intros (pre & mid & post & -> & H%lower_same_text).
    exists (lower pre), (lower post). by rewrite !lower_app, H.
Qed.

Lemma filter_sublist_of {A} (P : A → Prop) `{∀ x, Decision (P x)} (l : list A) :
  filter P l `sublist_of` l.
Proof.
  induction l as [|x l IH]; [done|].
  destruct (decide (P x)).
  - rewrite filter_cons_True by done. by apply sublist_skip.
  - rewrite filter_cons_False by done. by apply sublist_cons.
Qed.

(** X10. For an ASCII text and ASCII names, [find_records_by_name]
    returns the entries, in their insertion order, whose name has a piece
    that agrees with the text up to the case of ASCII letters, and no
    other entry; the empty text selects every entry; and every record it
    returns is also returned by [find_record] for the same text. *)
Theorem find_records_by_name_spec b h name :
  is_ascii name = true →
  (∀ kv, kv ∈ data b → is_ascii (value (rec_name (h kv.2))) = true) →
  find_records_by_name b h name `sublist_of` data b
  ∧ (∀ kv, kv ∈ find_records_by_name b h name ↔
           kv ∈ data b ∧ occurs_ignoring_case name (value (rec_name (h kv.2))))
  ∧ (name = "" → find_records_by_name b h name = data b)
  ∧ (∀ k l, (k, l) ∈ find_records_by_name b h name → l ∈ find_record b h name).
Proof.
  intros _ _. rewrite find_records_by_name_filter.
  split; [apply filter_sublist_of|]. split; [|split].
  - intros kv. rewrite list_elem_of_filter. unfold name_matches.
    rewrite name_test_spec. tauto.
  - intros ->. generalize (data b). unfold dict.
    intros d. induction d as [|kv d IH]; [done|].
    rewrite filter_cons_True by apply name_matches_empty. by rewrite IH.
  - intros k l. rewrite list_elem_of_filter.
    simpl. intros [Hm Hin]. apply find_record_elem. split.
    + apply elem_of_values. by exists k.
    + unfold record_matches. by rewrite Hm.
Qed.

Lemma find_records_by_name_spec_witness :
  (1, 1%nat) ∈ find_records_by_name bob_store.1 bob_store.2 "bO"
  ∧ 1%nat ∈ find_record bob_store.1 bob_store.2 "bO".
Proof.
  assert (∀ kv, kv ∈ data bob_store.1 →
                is_ascii (value (rec_name (bob_store.2 kv.2))) = true) as Hnames.
  { intros kv Hin. vm_compute in Hin.
    apply list_elem_of_singleton in Hin as ->. reflexivity. }
  destruct (find_records_by_name_spec bob_store.1 bob_store.2 "bO" eq_refl Hnames)
    as (_ & Hiff & _ & Hfind).
  assert ((1, 1%nat) ∈ find_records_by_name bob_store.1 bob_store.2 "bO") as Hin.
  { apply Hiff. split; [vm_compute; left|].
    exists "", "Bo", "b". split; reflexivity. }
  split; [exact Hin|]. by apply (Hfind 1).
Defined.

Lemma scan_fields_app t fs rec found :
  scan_fields t fs rec found
  = found ++ replicate (Nat.b2n (existsb (fun p => str_in t (value p)) fs)) rec.
Proof.
  induction fs as [|p fs IH]; simpl; [by rewrite app_nil_r|].
  destruct (str_in t (value p)); simpl; [done|]. apply IH.
Qed.

Lemma find_step_app t h found rec :
  find_step t h found rec = found ++ replicate (hits t (h rec)) rec.
Proof.
  unfold find_step, hits, name_matches, phone_matches, email_matches.
  destruct (str_in (lower t) (lower (value (rec_name (h rec))))); [done|].
  rewrite !scan_fields_app, <- app_assoc. by rewrite replicate_add.
Qed.

Lemma find_loop_app t h ls found :
  foldl (find_step t h) found ls
  = found ++ (l ← ls; replicate (hits t (h l)) l).
Proof.
  revert found. induction ls as [|l ls IH]; intros found; simpl.
  - by rewrite app_nil_r.
  - rewrite IH, find_step_app, <- app_assoc. done.
Qed.

(** X12. [find_record] lists the stored records in insertion order, each
    one as often as the loop appends it: once when the name matches, and
    otherwise once for a matching phone plus once for a matching email,
    so a record is listed twice exactly when its name does not match and
    both a phone and an email do.  The empty text lists every stored
    record exactly once. *)
Theorem find_record_multiplicity b h t :
  find_record b h t = (l ← values (data b); replicate (hits t (h l)) l)
  ∧ (∀ r, hits t r = 2%nat ↔
          name_matches t r = false ∧ phone_matches t r = true
          ∧ email_matches t r = true)
  ∧ (∀ r, (hits t r ≤ 2)%nat)
  ∧ find_record b h "" = values (data b).
Proof.
  split; [unfold find_record; by rewrite find_loop_app|]. split; [|split].
  - intros r. unfold hits.
    destruct (name_matches t r), (phone_matches t r), (email_matches t r);
      simpl; split; try done; try lia; intros (? & ? & ?); done.
  - intros r. unfold hits.
    destruct (name_matches t r), (phone_matches t r), (email_matches t r);
      simpl; lia.
  - unfold find_record. rewrite find_loop_app. simpl.
    induction (values (data b)) as [|l ls IH]; [done|].
    csimpl. rewrite IH. unfold hits. by rewrite name_matches_empty.
Qed.

Lemma find_record_multiplicity_witness :
  find_record bob_store.1 bob_store.2 "" = [1%nat] ∧ hits "1" bob_1 = 2%nat.
Proof.
  destruct (find_record_multiplicity bob_store.1 bob_store.2 "1")
    as (_ & Htwice & _ & _).
  destruct (find_record_multiplicity bob_store.1 bob_store.2 "")
    as (_ & _ & _ & Hall).
  split; [rewrite Hall; reflexivity|]. apply Htwice. by repeat split.
Defined.

(** ** Batches: how many, and which records *)

Lemma batch_count_step (n c : nat) :
  (c < n)%nat → (S ((n - (c + 5) + 4) / 5) = (n - c + 4) / 5)%nat.
Proof.
  intros H. destruct (decide (n - c < 5)%nat) as [Hs|Hl].
  - replace (n - (c + 5))%nat with 0%nat by lia.
    assert (∃ e, (n - c = S e)%nat ∧ (e < 4)%nat) as (e & -> & He)
      by (exists (n - c - 1)%nat; lia).
    by do 4 (destruct e as [|e]; [done|]); lia.
  - replace (n - c + 4)%nat with (1 * 5 + (n - (c + 5) + 4))%nat by lia.
    by rewrite Nat.div_add_l.
Qed.

Section drain_positions.
Variables (d : dict) (n : Z) (f : gset Z).

Local Abbreviation it' c := (mkBook d n f (Some c)).

Lemma drain_positions fuel c bs :
  drain fuel (it' c) = Some bs →
  length bs = ((length d - c + 4) / 5)%nat
  ∧ ∀ k x, bs !! k = Some x → x = take 5 (drop (c + 5 * k) (values d)).
Proof.
  revert c bs. induction fuel as [|fuel IH]; intros c bs; [done|].
  rewrite drain_S. unfold next_. cbn [current data next_id free_ids].
  destruct (c <? length d)%nat eqn:E.
  - apply Nat.ltb_lt in E.
    destruct (drain fuel (it' (c + 5)%nat)) as [bs'|] eqn:Ed; [|done].
    simpl. intros [= <-]. destruct (IH _ _ Ed) as [Hlen Hpos].
    split; [simpl; rewrite Hlen; by apply batch_count_step|].
    intros [|k] x; simpl.
    + intros [= <-]. do 2 f_equal. lia.
    + intros Hx. rewrite (Hpos _ _ Hx). do 2 f_equal. lia.
  - apply Nat.ltb_ge in E. intros [= <-]. split.
    + replace (length d - c)%nat with 0%nat by lia. done.
    + intros k x Hx. by rewrite lookup_nil in Hx.
Qed.
End drain_positions.

(** X13. A fresh batched iteration over [n] entries yields
    [(n + 4) / 5] batches, and batch number [k] (from 0) consists of the
    records at positions [5k .. 5k + 4] of the insertion order. *)
Theorem iterate_batches_positions (b : AddressBook) :
  ∃ bs, iterate_batches b = Some bs
        ∧ length bs = ((length (data b) + 4) / 5)%nat
        ∧ ∀ k x, bs !! k = Some x →
                 x = take 5 (drop (5 * k) (values (data b))).
Proof.
  destruct b as [d n f c]. unfold iterate_batches, iter_. simpl.
  destruct (drain_spec d n f (S (length d)) 0) as (bs & Hbs & _); [lia|].
  exists bs. split; [done|].
  destruct (drain_positions d n f _ _ _ Hbs) as [Hlen Hpos].
  split; [by rewrite Nat.sub_0_r in Hlen|done].
Qed.

Lemma iterate_batches_positions_witness :
  ∃ bs, iterate_batches (run (new_book, bobs) (Insert <$> seq 0 12)).1 = Some bs
        ∧ length bs = 3%nat
        ∧ bs !! 2%nat = Some [10%nat; 11%nat].
Proof.
  destruct (iterate_batches_positions (run (new_book, bobs) (Insert <$> seq 0 12)).1)
    as (bs & Hbs & Hlen & Hpos).
  exists bs. split; [exact Hbs|]. split; [exact Hlen|].
  assert (2 < length bs)%nat as Hlt by (rewrite Hlen; vm_compute; lia).
  apply lookup_lt_is_Some in Hlt as [x Hx].
  pose proof (Hpos _ _ Hx) as ->. exact Hx.
Defined.

(** ** Adding, removing and replacing phones and emails *)

Lemma list_remove_app_new x l :
  list_remove x l = None → list_remove x (l ++ [x]) = Some l.
Proof.
  induction l as [|y l IH]; simpl.
  - intros _. unfold py_eq. by rewrite bool_decide_eq_true_2.
  - destruct (py_eq y x); [done|].
    destruct (list_remove x l); [done|]. intros _. by rewrite IH.
Qed.

Lemma list_remove_some x l l' :
  list_remove x l = Some l' →
  ∃ l1 y l2, l = l1 ++ y :: l2 ∧ oid y = oid x
             ∧ ¬ present_by_identity x l1 ∧ l' = l1 ++ l2.
Proof.
  revert l'. induction l as [|y l IH]; intros l'; simpl; [done|].
  destruct (py_eq y x) eqn:E.
  - intros [= <-]. exists [], y, l. apply bool_decide_eq_true in E.
    split; [done|]. split; [done|]. split; [|done].
    intros (p & Hp & _). by apply elem_of_nil in Hp.
  - destruct (list_remove x l) as [t|]; [|done]. simpl. intros [= <-].
    destruct (IH t eq_refl) as (l1 & z & l2 & -> & Hz & Hno & ->).
    exists (y :: l1), z, l2. split; [done|]. split; [done|]. split; [|done].
    intros (p & Hp & Hid). apply elem_of_cons in Hp as [->|Hp].
    + apply bool_decide_eq_false in E. done.
    + apply Hno. by exists p.
Qed.

Lemma with_phones_id r : with_phones r (rec_phones r) = r.
Proof. by destruct r. Qed.

Lemma with_emails_id r : with_emails r (rec_emails r) = r.
Proof. by destruct r. Qed.

(** X14. Removing a phone (or an email) right after adding it gives the
    record back unchanged, provided that object was not in the list
    before. *)
Theorem add_then_remove r (x : Field) :
  (¬ present_by_identity x (rec_phones r) →
   remove_phone (add_phone r x) x = (Returned, r))
  ∧ (¬ present_by_identity x (rec_emails r) →
     remove_email (add_email r x) x = (Returned, r)).
Proof.
  split; intros H%list_remove_none; destruct r as [i nm ps es bd ad ns].
  - unfold remove_phone, add_phone, with_phones. cbn -[list_remove] in *.
    unfold Phone in *. by rewrite (list_remove_app_new _ _ H).
  - unfold remove_email, add_email, with_emails. cbn -[list_remove] in *.
    unfold Email in *. by rewrite (list_remove_app_new _ _ H).
Qed.

Lemma add_then_remove_witness :
  remove_phone (add_phone carol same_number) same_number = (Returned, carol).
Proof.
  apply (proj1 (add_then_remove carol same_number)).
  intros (p & Hp & Hid). apply list_elem_of_singleton in Hp as ->.
  discriminate Hid.
Defined.

(** X15. When the object [old] is in the phone list, [edit_phone] removes
    its first occurrence only and appends [new] at the end of the list:
    the number of phones is unchanged, later occurrences of [old] stay,
    and the new phone does not take the old one's position.  The same
    holds for [edit_email]. *)
Theorem edit_replaces_first r (old new : Field) :
  (present_by_identity old (rec_phones r) →
   ∃ l1 y l2, rec_phones r = l1 ++ y :: l2 ∧ oid y = oid old
              ∧ ¬ present_by_identity old l1
              ∧ edit_phone r old new = (Returned, with_phones r (l1 ++ l2 ++ [new])))
  ∧ (present_by_identity old (rec_emails r) →
     ∃ l1 y l2, rec_emails r = l1 ++ y :: l2 ∧ oid y = oid old
                ∧ ¬ present_by_identity old l1
                ∧ edit_email r old new = (Returned, with_emails r (l1 ++ l2 ++ [new]))).
Proof.
  split; intros H.
  - destruct (list_remove old (rec_phones r)) as [t|] eqn:E;
      [|by apply list_remove_none in E].
    destruct (list_remove_some _ _ _ E) as (l1 & y & l2 & Hl & Hy & Hno & ->).
    exists l1, y, l2. split; [done|]. split; [done|]. split; [done|].
    unfold edit_phone, remove_phone. rewrite E. unfold add_phone, with_phones.
    simpl. by rewrite <- app_assoc.
  - destruct (list_remove old (rec_emails r)) as [t|] eqn:E;
      [|by apply list_remove_none in E].
    destruct (list_remove_some _ _ _ E) as (l1 & y & l2 & Hl & Hy & Hno & ->).
    exists l1, y, l2. split; [done|]. split; [done|]. split; [done|].
    unfold edit_email, remove_email. rewrite E. unfold add_email, with_emails.
    simpl. by rewrite <- app_assoc.
Qed.

Lemma edit_replaces_first_witness :
  ∃ l1 y l2, rec_phones carol = l1 ++ y :: l2
             ∧ edit_phone carol (mkField 11 "123456789") other_number
               = (Returned, with_phones carol (l1 ++ l2 ++ [other_number])).
Proof.
  destruct (proj1 (edit_replaces_first carol (mkField 11 "123456789") other_number))
    as (l1 & y & l2 & H1 & _ & _ & H2).
  - exists (mkField 11 "123456789"). split; [left|reflexivity].
  - by exists l1, y, l2.
Defined.

(** ** The notebook *)

(** X16. [delete_note] takes a 1-based position: for [1 <= note_id <= len]
    it removes the note at that position, so the notes after it move up
    by one position, and the tags are untouched; for any other number, or
    a line that is not a number, the notebook is unchanged. *)
Theorem delete_note_spec nb :
  delete_note nb None = nb
  ∧ (∀ note_id, ¬ (1 ≤ note_id ≤ Z.of_nat (length (nb_notes nb))) →
       delete_note nb (Some note_id) = nb)
  ∧ (∀ note_id, 1 ≤ note_id ≤ Z.of_nat (length (nb_notes nb)) →
       let nb' := delete_note nb (Some note_id) in
       let i := Z.to_nat (note_id - 1) in
       nb_notes nb' = take i (nb_notes nb) ++ drop (S i) (nb_notes nb)
       ∧ S (length (nb_notes nb')) = length (nb_notes nb)
       ∧ (∀ j, (j < i)%nat → nb_notes nb' !! j = nb_notes nb !! j)
       ∧ (∀ j, (i ≤ j)%nat → nb_notes nb' !! j = nb_notes nb !! S j)
       ∧ nb_tags nb' = nb_tags nb).
Proof.
  split; [done|]. split.
  - intros k Hk. unfold delete_note.
    destruct ((1 <=? k) && (k <=? Z.of_nat (length (nb_notes nb)))) eqn:E; [|done].
    apply andb_true_iff in E as [?%Z.leb_le ?%Z.leb_le]. lia.
  - intros k Hk nb' i. subst nb' i. unfold delete_note.
    rewrite (proj2 (andb_true_iff _ _)) by (split; apply Z.leb_le; lia).
    simpl. split; [apply delete_take_drop|]. split; [|split; [|split; [|done]]].
    + rewrite length_delete; [lia|]. apply lookup_lt_is_Some. lia.
    + intros j Hj. by apply list_lookup_delete_lt.
    + intros j Hj. by apply list_lookup_delete_ge.
Qed.

Lemma delete_note_spec_witness :
  let nb := mkNotebook [mkNote "a" "1" []; mkNote "b" "2" []; mkNote "c" "3" []] [] in
  nb_notes (delete_note nb (Some 2)) !! 1%nat = Some (mkNote "c" "3" []).
Proof.
  intros nb. destruct (delete_note_spec nb) as (_ & _ & H).
  destruct (H 2) as (_ & _ & _ & Hge & _); [simpl; lia|].
  rewrite Hge; [reflexivity|simpl; lia].
Defined.

(** ** Rendering the address book *)

Lemma record_str_none r today :
  record_str r today = None ↔
  rec_birthday r ≠ None ∧ days_to_birthday r today = DaysValueError.
Proof.
  unfold record_str. destruct (rec_birthday r) as [bd|] eqn:Eb.
  - destruct (days_to_birthday r today) eqn:Ed; split; try done.
    all: by intros [_ ?].
  - split; [done|]. by intros [? _].
Qed.

Lemma print_records_spec h now ls i :
  (∀ j line, (print_records h now i ls).1 !! j = Some line →
     ∃ l, ls !! j = Some l ∧ record_str (h l) (now (i + j)%nat) = Some line)
  ∧ ((print_records h now i ls).2 = Returned →
     length (print_records h now i ls).1 = length ls)
  ∧ ((print_records h now i ls).2 = RaisedValueError →
     ∃ l, ls !! length (print_records h now i ls).1 = Some l
          ∧ record_str (h l) (now (i + length (print_records h now i ls).1)%nat)
            = None).
Proof.
  revert i. induction ls as [|l ls IH]; intros i; simpl.
  - split; [intros j line Hj; by rewrite lookup_nil in Hj|]. by split.
  - destruct (record_str (h l) (now i)) as [line0|] eqn:E.
    + destruct (IH (S i)) as (H1 & H2 & H3).
      destruct (print_records h now (S i) ls) as [out o]. simpl in *.
      split; [|split].
      * intros [|j] line; simpl.
        -- intros [= <-]. exists l. by rewrite Nat.add_0_r.
        -- intros Hj. destruct (H1 _ _ Hj) as (l' & Hl & Hs).
           exists l'. split; [done|]. by rewrite Nat.add_succ_r.
      * intros Ho. by rewrite H2.
      * intros Ho. destruct (H3 Ho) as (l' & Hl & Hs).
        exists l'. split; [done|]. by rewrite Nat.add_succ_r.
    + simpl. split; [intros j line Hj; by rewrite lookup_nil in Hj|].
      split; [done|]. intros _. exists l. by rewrite Nat.add_0_r.
Qed.

(** X17. [show_all_records] prints one line for an empty book.  Otherwise
    it prints the renderings of the records in insertion order and stops
    with the [ValueError] of the first record whose [days_to_birthday]
    raises: it raises exactly when the book holds such a record, the
    lines printed before are those of the records in front of it, and
    without such a record as many renderings are printed as there are
    entries. *)
Theorem show_all_records_spec b h now :
  let out := (show_all_records b h now).1 in
  let o := (show_all_records b h now).2 in
  (data b = [] → out = ["Address book is empty."] ∧ o = Returned)
  ∧ (o = RaisedValueError ↔
     ∃ j l, values (data b) !! j = Some l ∧ rec_birthday (h l) ≠ None
            ∧ days_to_birthday (h l) (now j) = DaysValueError)
  ∧ (o = RaisedValueError →
     ∃ l, values (data b) !! length out = Some l
          ∧ days_to_birthday (h l) (now (length out)) = DaysValueError)
  ∧ (data b ≠ [] →
     (∀ j line, out !! j = Some line →
        ∃ l, values (data b) !! j = Some l
             ∧ record_str (h l) (now j) = Some line)
     ∧ (o = Returned → length out = length (data b))).
Proof.
  intros out o. subst out o. unfold show_all_records.
  destruct (data b) as [|kv d] eqn:Ed.
  - simpl. split; [done|]. split; [|split; [done|done]].
    split; [done|]. intros (j & l & Hj & _). by rewrite lookup_nil in Hj.
  - clear Ed. set (d' := kv :: d). cbv iota.
    destruct (print_records_spec h now (values d') 0) as (H1 & H2 & H3).
    assert (length (values d') = length d') as Hlen
      by (unfold values; apply length_fmap).
    split; [done|]. split; [|split; [|intros _]].
    + split.
      * intros Ho. destruct (H3 Ho) as (l & Hl & Hs). simpl in Hs.
        apply record_str_none in Hs as [Hb Hs].
        by exists (length (print_records h now 0 (values d')).1), l.
      * intros (j & l & Hj & Hb & Hs).
        destruct (print_records h now 0 (values d')) as [out [|]] eqn:E;
          [|done]. simpl in *. exfalso.
        assert (j < length out)%nat as Hlt
          by (rewrite H2 by done; by apply lookup_lt_Some in Hj).
        apply lookup_lt_is_Some in Hlt as [line Hline].
        destruct (H1 _ _ Hline) as (l' & Hl' & Hs'). rewrite Hj in Hl'.
        injection Hl' as <-. simpl in Hs'.
        assert (record_str (h l) (now j) = None) as Hn
          by by apply record_str_none.
        by rewrite Hn in Hs'.
    + intros Ho. destruct (H3 Ho) as (l & Hl & Hs). simpl in Hs.
      apply record_str_none in Hs as [_ Hs]. by exists l.
    + split; [exact H1|]. intros Ho. by rewrite H2.
Qed.

Lemma show_all_records_spec_witness :
  let s := run (new_book, fun _ => born "2020-02-29") [Insert 1%nat] in
  (show_all_records s.1 s.2 (fun _ => new_year_2023)).2 = RaisedValueError.
Proof.
  intros s.
  apply (proj1 (proj2 (show_all_records_spec s.1 s.2 (fun _ => new_year_2023)))).
  exists 0%nat, 1%nat. split; [reflexivity|]. split; [done|reflexivity].
Defined.

(** ** The day count of [days_to_birthday] *)

Lemma days_before_year_succ y :
  days_before_year (y + 1)
  = days_before_year y + 365 + (if is_leap y then 1 else 0).
Proof.
  unfold days_before_year, is_leap. replace (y + 1 - 1) with y by lia.
  destruct (y mod 4 =? 0) eqn:E4; destruct (y mod 100 =? 0) eqn:E100;
    destruct (y mod 400 =? 0) eqn:E400; simpl;
    rewrite ?Z.eqb_eq, ?Z.eqb_neq in *;
    Z.to_euclidean_division_equations; lia.
Qed.

Lemma valid_date_inv y m d :
  valid_date y m d = true ↔
  1 ≤ y ≤ 9999 ∧ 1 ≤ m ≤ 12 ∧ 1 ≤ d ≤ days_in_month y m.
Proof. unfold valid_date. rewrite !andb_true_iff, !Z.leb_le. lia. Qed.

(** A date other than 29 February exists in every year. *)
Lemma valid_date_other_year y0 y m d :
  valid_date y0 m d = true → ¬ (m = 2 ∧ d = 29) → 1 ≤ y ≤ 9999 →
  valid_date y m d = true.
Proof.
  rewrite !valid_date_inv. unfold days_in_month.
  destruct (m =? 2) eqn:E2.
  - apply Z.eqb_eq in E2. destruct (is_leap y0), (is_leap y); lia.
  - destruct ((m =? 4) || (m =? 6) || (m =? 9) || (m =? 11)); lia.
Qed.

Lemma time_of_day_range dt :
  valid_datetime dt → 0 ≤ time_of_day dt < 86400 * 1000000.
Proof. unfold valid_datetime, time_of_day. lia. Qed.

Lemma dt_gt_midnight today bm bd :
  valid_datetime today →
  dt_gt today (mkDT (year today) bm bd 0 0 0 0) = true ↔
  bm < month today
  ∨ (month today = bm
     ∧ (bd < day today ∨ (day today = bd ∧ 0 < time_of_day today))).
Proof.
  intros (_ & Hh & Hm & Hs & Hu). unfold dt_gt, dt_fields, time_of_day.
  cbn [lex_gt year month day hour minute second microsecond].
  rewrite !orb_true_iff, !andb_true_iff, !orb_true_iff, !andb_true_iff.
  rewrite !orb_true_iff, !andb_true_iff, !orb_true_iff, !andb_true_iff.
  rewrite !orb_true_iff, !andb_true_iff, !orb_true_iff, !andb_true_iff.
  rewrite !Z.ltb_lt, !Z.eqb_eq. lia.
Qed.

Lemma sub_days_from_midnight a b :
  hour a = 0 → minute a = 0 → second a = 0 → microsecond a = 0 →
  0 ≤ time_of_day b < 86400 * 1000000 →
  sub_days a b
  = toordinal a - toordinal b - (if time_of_day b =? 0 then 0 else 1).
Proof.
  intros Ha Hm Hs Hu Hb. unfold sub_days. rewrite Ha, Hm, Hs, Hu.
  unfold time_of_day in *.
  destruct ((second b + minute b * 60 + hour b * 3600) * 1000000
            + microsecond b =? 0) eqn:E;
    rewrite ?Z.eqb_eq, ?Z.eqb_neq in E;
    Z.to_euclidean_division_equations; lia.
Qed.

Lemma strptime_nonempty s dt : strptime s = Some dt → s ≠ "".
Proof. by intros H ->. Qed.

Ltac enum_month m :=
  let H := fresh "Hm" in
  assert (m = 1 ∨ m = 2 ∨ m = 3 ∨ m = 4 ∨ m = 5 ∨ m = 6 ∨ m = 7 ∨ m = 8
          ∨ m = 9 ∨ m = 10 ∨ m = 11 ∨ m = 12) as H by lia;
  destruct H as [->|[->|[->|[->|[->|[->|[->|[->|[->|[->|[->| ->]]]]]]]]]]].

(** The calendar facts behind the day count, for a day [(m, d)] of year
    [y] and a birthday [(bm, bd)] that is not 29 February: [a] is the
    ordinal distance to the birthday of this year, [c] the one to the
    birthday of next year. *)
Lemma birthday_distances (lp lp' : bool) m d bm bd :
  1 ≤ m ≤ 12 → 1 ≤ bm ≤ 12 →
  1 ≤ d ≤ (if m =? 2 then (if lp then 29 else 28)
           else if (m =? 4) || (m =? 6) || (m =? 9) || (m =? 11) then 30 else 31) →
  1 ≤ bd ≤ (if bm =? 2 then 28
            else if (bm =? 4) || (bm =? 6) || (bm =? 9) || (bm =? 11) then 30 else 31) →
  let dbm (l : bool) k :=
    nth (Z.to_nat k) [-1; 0; 31; 59; 90; 120; 151; 181; 212; 243; 273; 304; 334] 0
    + (if (2 <? k) && l then 1 else 0) in
  let a := dbm lp bm + bd - (dbm lp m + d) in
  let c := 365 + (if lp then 1 else 0) + dbm lp' bm + bd - (dbm lp m + d) in
  a ≤ 365
  ∧ 1 ≤ c
  ∧ ((bm < m ∨ (m = bm ∧ bd < d)) → a < 0 ∧ c ≤ 365)
  ∧ ((m = bm ∧ d = bd) → a = 0 ∧ 365 ≤ c ≤ 366)
  ∧ ((m < bm ∨ (m = bm ∧ d < bd)) → 1 ≤ a).
Proof.
  intros Hm Hbm Hd Hbd dbm a c. subst dbm a c.
  enum_month m; enum_month bm; destruct lp, lp'; simpl in *; lia.
Qed.

Lemma non_feb29_day y0 bm bd :
  valid_date y0 bm bd = true → ¬ (bm = 2 ∧ bd = 29) →
  1 ≤ bd ≤ (if bm =? 2 then 28
            else if (bm =? 4) || (bm =? 6) || (bm =? 9) || (bm =? 11) then 30 else 31).
Proof.
  rewrite valid_date_inv. unfold days_in_month.
  destruct (bm =? 2) eqn:E2; [|lia].
  apply Z.eqb_eq in E2. destruct (is_leap y0); lia.
Qed.

Lemma toordinal_unfold y m d h mi s us :
  toordinal (mkDT y m d h mi s us)
  = days_before_year y
    + (nth (Z.to_nat m) [-1; 0; 31; 59; 90; 120; 151; 181; 212; 243; 273; 304; 334] 0
       + (if (2 <? m) && is_leap y then 1 else 0))
    + d.
Proof. done. Qed.

Lemma replace_year_midnight y' y m d :
  valid_date y m d = true →
  replace_year (mkDT y' m d 0 0 0 0) y = Some (mkDT y m d 0 0 0 0).
Proof. intros H. unfold replace_year. simpl. by rewrite H. Qed.

(** X18. For a birthday other than 29 February and a valid [now] up to
    year 9998, [days_to_birthday] returns a number from 0 to 365 and never
    raises.  Against the date-only count [D] of days from today to the
    next occurrence of the birthday: it returns [D] when [now] is exactly
    midnight; at any later time of day it returns [D - 1] when the
    birthday is not today, and 364 or 365 when it is today. *)
Theorem days_to_birthday_count r bd bday today :
  rec_birthday r = Some bd → strptime (value bd) = Some bday →
  ¬ (month bday = 2 ∧ day bday = 29) →
  valid_datetime today → year today ≤ 9998 →
  ∃ n D, days_to_birthday r today = Days n
         ∧ spec_days_to_next_birthday bday today = Some D
         ∧ 0 ≤ n ≤ 365 ∧ 0 ≤ D ≤ 365
         ∧ (time_of_day today = 0 → n = D)
         ∧ (time_of_day today ≠ 0 →
            (1 ≤ D → n = D - 1) ∧ (D = 0 → 364 ≤ n)).
Proof.
  intros Hb Hp Hnot Hvt Hy.
  pose proof (strptime_nonempty _ _ Hp) as Hne.
  pose proof (strptime_inv _ _ Hp) as (y0 & bm & bdd & Hv0 & _ & ->).
  cbn [month day] in Hnot.
  pose proof (time_of_day_range _ Hvt) as Htod.
  pose proof Hvt as (Hvd & _).
  pose proof (proj1 (valid_date_inv _ _ _) Hvd) as (HY & Hm & Hd).
  pose proof (proj1 (valid_date_inv _ _ _) Hv0) as (_ & Hbm & _).
  pose proof (non_feb29_day _ _ _ Hv0 Hnot) as Hbd.
  assert (valid_date (year today) bm bdd = true) as HvY
    by (apply (valid_date_other_year y0); [done|done|lia]).
  assert (valid_date (year today + 1) bm bdd = true) as HvY1
    by (apply (valid_date_other_year y0); [done|done|lia]).
  assert (valid_datetime (date_only today)) as Hvt0
    by (unfold valid_datetime, date_only; simpl; repeat split; try done; lia).
  pose proof (dt_gt_midnight today bm bdd Hvt) as Hgt.
  pose proof (dt_gt_midnight (date_only today) bm bdd Hvt0) as Hgt0.
  cbn [date_only year month day] in Hgt0.
  assert (time_of_day (date_only today) = 0) as Htod0 by done.
  rewrite Htod0 in Hgt0. clear Htod0 Hvt0.
  destruct (birthday_distances (is_leap (year today)) (is_leap (year today + 1))
              (month today) (day today) bm bdd Hm Hbm Hd Hbd)
    as (Ha365 & Hc1 & Hpast & Hsame & Hfuture).
  unfold days_to_birthday, spec_days_to_next_birthday.
  rewrite Hb, Hp. rewrite (proj2 (String.eqb_neq _ _) Hne).
  rewrite !(replace_year_midnight y0 (year today)) by done. cbv iota.
  rewrite !(replace_year_midnight (year today) (year today + 1)) by done.
  rewrite !(replace_year_midnight y0 (year today + 1)) by done. cbv iota.
  rewrite !(sub_days_from_midnight _ today) by done.
  destruct today as [Y m d hh mi ss us]. unfold date_only in *.
  cbn [year month day] in *.
  rewrite !toordinal_unfold, !days_before_year_succ.
  destruct (dt_gt (mkDT Y m d hh mi ss us) (mkDT Y bm bdd 0 0 0 0));
    destruct (dt_gt (mkDT Y m d 0 0 0 0) (mkDT Y bm bdd 0 0 0 0)).
  - pose proof (proj1 Hgt0 eq_refl) as E0.
    eexists _, _. split; [reflexivity|]. split; [reflexivity|].
    destruct (time_of_day (mkDT Y m d hh mi ss us) =? 0) eqn:Et;
      rewrite ?Z.eqb_eq, ?Z.eqb_neq in Et; lia.
  - pose proof (proj1 Hgt eq_refl) as E.
    assert (¬ (bm < m ∨ m = bm ∧ (bdd < d ∨ d = bdd ∧ 0 < 0)))
      as E0 by (intros HH; by apply Hgt0 in HH).
    eexists _, _. split; [reflexivity|]. split; [reflexivity|].
    destruct (time_of_day (mkDT Y m d hh mi ss us) =? 0) eqn:Et;
      rewrite ?Z.eqb_eq, ?Z.eqb_neq in Et; lia.
  - pose proof (proj1 Hgt0 eq_refl) as E0.
    assert (false = true) as E by (apply Hgt; lia). done.
  - assert (¬ (bm < m ∨ m = bm ∧ (bdd < d ∨ d = bdd
                 ∧ 0 < time_of_day (mkDT Y m d hh mi ss us))))
      as E by (intros HH; by apply Hgt in HH).
    eexists _, _. split; [reflexivity|]. split; [reflexivity|].
    destruct (time_of_day (mkDT Y m d hh mi ss us) =? 0) eqn:Et;
      rewrite ?Z.eqb_eq, ?Z.eqb_neq in Et; lia.
Qed.

Lemma days_to_birthday_count_witness :
  ∃ n D, days_to_birthday (born "1990-06-15") june_14_at_10 = Days n
         ∧ spec_days_to_next_birthday (mkDT 1990 6 15 0 0 0 0) june_14_at_10 = Some D
         ∧ n = D - 1.
Proof.
  destruct (days_to_birthday_count (born "1990-06-15") (mkField 31 "1990-06-15")
              (mkDT 1990 6 15 0 0 0 0) june_14_at_10)
    as (n & D & Hn & HD & _ & _ & _ & Hlate).
  - reflexivity.
  - reflexivity.
  - simpl. lia.
  - unfold valid_datetime, june_14_at_10. simpl. split; [reflexivity|lia].
  - simpl. lia.
  - exists n, D. split; [exact Hn|]. split; [exact HD|].
    apply Hlate; [done|].
    assert (D = 1) as -> by (vm_compute in HD; congruence). lia.
Defined.

(** ** Deleting while a traversal is under way *)

(** X19. The position of a batched traversal is kept in the book itself,
    and every batch is cut from the entries as they are at that moment.
    If, after the first batch, one of the first five entries is deleted,
    the remaining batches are the entries from the seventh on: the sixth
    record is never produced. *)
Theorem delete_during_iteration b k :
  NoDup (keys (data b)) → k ∈ keys (take 5 (data b)) →
  let it1 := (next_ (iter_ b)).2 in
  let it2 := delete_record_by_id it1 (Some k) in
  (next_ (iter_ b)).1 = Batch (take 5 (values (data b)))
  ∧ ∃ bs, drain (S (length (data it2))) it2 = Some bs
          ∧ concat bs = drop 6 (values (data b)).
Proof.
  destruct b as [d n f c]. simpl. intros Hnd Hk.
  assert (k ∈ keys d) as Hkd.
  { unfold keys in *. apply list_elem_of_fmap in Hk as (kv & -> & Hin).
    apply list_elem_of_fmap. exists kv. split; [done|].
    eapply elem_of_sublist; [exact Hin|]. apply sublist_take. }
  unfold next_, iter_. cbn [current data next_id free_ids].
  destruct d as [|kv0 d0] eqn:Ed; [by apply elem_of_nil in Hk|].
  rewrite <- Ed in *. assert ((0 <? length d)%nat = true) as ->
    by (rewrite Ed; done).
  cbn [fst snd]. split; [done|]. unfold delete_record_by_id.
  cbn [data next_id free_ids current].
  rewrite (proj2 (dict_mem_true _ _) Hkd).
  destruct (drain_spec (dict_del d k) n ({[k]} ∪ f) (S (length (dict_del d k))) 5)
    as (bs & Hbs & Hcat & _); [lia|].
  exists bs. split; [done|]. rewrite Hcat.
  destruct (dict_del_split d k Hnd Hkd) as (d1 & l & d2 & Hd & ->).
  assert (k ∉ keys d1) as Hk1.
  { rewrite Hd in Hnd. unfold keys in Hnd. rewrite fmap_app in Hnd.
    apply NoDup_app in Hnd as (_ & Hx & _). intros Hin. apply (Hx _ Hin).
    rewrite fmap_cons. left. }
  assert (length d1 < 5)%nat as Hl1.
  { destruct (decide (length d1 < 5)%nat) as [?|Hge]; [done|]. exfalso.
    apply Hk1. rewrite Hd, take_app_le in Hk by lia. unfold keys in *.
    apply list_elem_of_fmap in Hk as (kv & -> & Hin).
    apply list_elem_of_fmap. exists kv. split; [done|].
    eapply elem_of_sublist; [exact Hin|]. apply sublist_take. }
  rewrite Hd. unfold values. rewrite !fmap_app, fmap_cons.
  rewrite !drop_app_ge by (rewrite length_fmap; lia). rewrite length_fmap.
  replace (6 - length d1)%nat with (S (5 - length d1)) by lia. done.
Qed.

Lemma delete_during_iteration_witness :
  let b := (run (new_book, bobs) (Insert <$> seq 0 8)).1 in
  ∃ bs, drain (S (length (data (delete_record_by_id (next_ (iter_ b)).2 (Some 2)))))
              (delete_record_by_id (next_ (iter_ b)).2 (Some 2)) = Some bs
        ∧ concat bs = [6%nat; 7%nat].
Proof.
  intros b. destruct (delete_during_iteration b 2) as (_ & bs & Hbs & Hcat).
  - vm_compute. repeat constructor; intros Hx;
      repeat (apply elem_of_cons in Hx as [Hx|Hx]; [discriminate Hx|]);
      by apply elem_of_nil in Hx.
  - vm_compute. right. left.
  - exists bs. split; [exact Hbs|]. rewrite Hcat. reflexivity.
Defined.

(** ** Records built by [create_record] *)


(** ** Records built by [create_record] *)

Lemma read_birthday_valid o inputs out bd rest out' :
  read_birthday o inputs out = Some (Some bd, rest, out') →
  validate_birthday (value bd) = true.
Proof.
  revert out. induction inputs as [|line inputs IH]; intros out; simpl; [done|].
  destruct (String.eqb line ""); [done|]. unfold new_Birthday.
  destruct (validate_birthday line) eqn:E; [by intros [= <- _ _]|apply IH].
Qed.

Lemma read_phones_spec o inputs r out r' o' rest out' :
  read_phones o inputs r out = Some (r', o', rest, out') →
  Forall (fun p => validate_phone (value p) = true) (rec_phones r) →
  Forall (fun p => validate_phone (value p) = true) (rec_phones r')
  ∧ rec_emails r' = rec_emails r ∧ rec_birthday r' = rec_birthday r
  ∧ rec_id r' = rec_id r ∧ rec_name r' = rec_name r
  ∧ rec_notes r' = rec_notes r.
Proof.
  revert o r out. induction inputs as [|line inputs IH]; intros o r out; simpl;
    [done|].
  destruct (String.eqb line ""); [by intros [= <- _ _ _]|].
  unfold new_Phone. destruct (validate_phone line) eqn:E; [|apply IH].
  intros H Hv. apply IH in H; [done|]. simpl.
  apply Forall_app. split; [done|]. by apply Forall_singleton.
Qed.

Lemma read_emails_spec o inputs r out r' o' rest out' :
  read_emails o inputs r out = Some (r', o', rest, out') →
  Forall (fun e => validate_email (value e) = true) (rec_emails r) →
  Forall (fun e => validate_email (value e) = true) (rec_emails r')
  ∧ rec_phones r' = rec_phones r ∧ rec_birthday r' = rec_birthday r
  ∧ rec_id r' = rec_id r ∧ rec_name r' = rec_name r
  ∧ rec_notes r' = rec_notes r.
Proof.
  revert o r out. induction inputs as [|line inputs IH]; intros o r out; simpl;
    [done|].
  destruct (String.eqb line ""); [by intros [= <- _ _ _]|].
  unfold new_Email. destruct (validate_email line) eqn:E; [|apply IH].
  intros H Hv. apply IH in H; [done|]. simpl.
  apply Forall_app. split; [done|]. by apply Forall_singleton.
Qed.

Lemma read_address_spec inputs r r' rest :
  read_address inputs r = Some (r', rest) →
  rec_phones r' = rec_phones r ∧ rec_emails r' = rec_emails r
  ∧ rec_birthday r' = rec_birthday r ∧ rec_id r' = rec_id r
  ∧ rec_name r' = rec_name r ∧ rec_notes r' = rec_notes r.
Proof.
  destruct inputs as [|answer inputs]; simpl; [done|].
  destruct (String.eqb (strip (lower answer)) "y"); [|by intros [= <- _]].
  destruct inputs as [|st [|ci [|pc [|co tl]]]]; try done. by intros [= <- _].
Qed.

Lemma read_note_spec inputs r r' rest :
  read_note inputs r = Some (r', rest) →
  rec_phones r' = rec_phones r ∧ rec_emails r' = rec_emails r
  ∧ rec_birthday r' = rec_birthday r ∧ rec_id r' = rec_id r
  ∧ rec_name r' = rec_name r
  ∧ (length (rec_notes r') ≤ S (length (rec_notes r)))%nat.
Proof.
  destruct inputs as [|answer inputs]; simpl; [done|].
  destruct (String.eqb (strip (lower answer)) "y");
    [|intros [= <- _]; repeat split; lia].
  destruct inputs as [|t [|c tl]]; try done. intros [= <- _].
  simpl. rewrite length_app. simpl. repeat split; lia.
Qed.

(** X20. Whenever [create_record] returns, the record has no id yet,
    carries the first typed line as its name without any check (also the
    empty line), and every phone, every email and the birthday in it
    passed its validator; it has at most one note. *)
Theorem create_record_valid o inputs r o' rest out :
  create_record o inputs = Some (r, o', rest, out) →
  fields_valid r
  ∧ rec_id r = None
  ∧ (∃ tl, inputs = value (rec_name r) :: tl)
  ∧ (length (rec_notes r) ≤ 1)%nat.
Proof.
  unfold create_record. destruct inputs as [|name_input tl]; [done|].
  destruct (read_birthday (S o) tl []) as [[[bd rest1] out1]|] eqn:E1; [|done].
  simpl.
  destruct (read_phones (S (S o)) rest1
              (mkRecord None (mkField o name_input) [] [] bd None []) out1)
    as [[[[r2 o2] rest2] out2]|] eqn:E2; [|done].
  simpl.
  destruct (read_emails o2 rest2 r2 out2) as [[[[r3 o3] rest3] out3]|] eqn:E3;
    [|done].
  simpl.
  destruct (read_address rest3 r3) as [[r4 rest4]|] eqn:E4; [|done]. simpl.
  destruct (read_note rest4 r4) as [[r5 rest5]|] eqn:E5; [|done]. simpl.
  intros [= <- <- <- <-].
  apply read_phones_spec in E2 as (P2 & Em2 & B2 & I2 & N2 & T2);
    [|by apply Forall_nil].
  simpl in *.
  apply read_emails_spec in E3 as (Em3 & P3 & B3 & I3 & N3 & T3);
    [|rewrite Em2; by apply Forall_nil].
  apply read_address_spec in E4 as (P4 & Em4 & B4 & I4 & N4 & T4).
  apply read_note_spec in E5 as (P5 & Em5 & B5 & I5 & N5 & T5).
  split; [|split; [|split]].
  - split; [|split].
    + by rewrite P5, P4, P3.
    + by rewrite Em5, Em4.
    + intros bd'. rewrite B5, B4, B3, B2. intros ->.
      by apply read_birthday_valid in E1.
  - by rewrite I5, I4, I3, I2.
  - exists tl. by rewrite N5, N4, N3, N2.
  - rewrite T4, T3, T2 in T5. simpl in T5. lia.
Qed.

Lemma create_record_valid_witness :
  ∃ r, fields_valid r ∧ value (rec_name r) = "" ∧ length (rec_phones r) = 1%nat.
Proof.
  pose proof (create_record_valid 0
    [""; "1990-13-01"; "1990-02-03"; "12345"; "123456789"; ""; ""; "n"; "n"]
    (mkRecord None (mkField 0 "") [mkField 2 "123456789"] []
              (Some (mkField 1 "1990-02-03")) None [])
    3%nat [] ["Invalid birthday"; "Invalid phone number"] eq_refl)
    as (Hv & _).
  eexists. split; [exact Hv|]. split; reflexivity.
Defined.

(** ** A birthday on 29 February *)

Lemma is_leap_succ y : is_leap y = true → is_leap (y + 1) = false.
Proof.
  unfold is_leap. rewrite andb_true_iff, andb_false_iff, Z.eqb_eq, Z.eqb_neq.
  intros [H4 _]. left. Z.to_euclidean_division_equations. lia.
Qed.

Lemma replace_year_feb29 y' y :
  replace_year (mkDT y' 2 29 0 0 0 0) y
  = if is_leap y && (1 <=? y) && (y <=? 9999)
    then Some (mkDT y 2 29 0 0 0 0) else None.
Proof.
  unfold replace_year, valid_date, days_in_month. simpl.
  destruct (is_leap y), (1 <=? y), (y <=? 9999); done.
Qed.

(** X21. With a birthday on 29 February, [days_to_birthday] returns a
    number only when the current year is a leap year and [now] is not
    later than the first instant of its 29 February; at every other
    valid [now] it raises [ValueError]. *)
Theorem days_to_birthday_feb29 r bd bday today :
  rec_birthday r = Some bd → strptime (value bd) = Some bday →
  month bday = 2 → day bday = 29 →
  valid_datetime today →
  days_to_birthday r today = DaysValueError ↔
  is_leap (year today) = false
  ∨ dt_gt today (mkDT (year today) 2 29 0 0 0 0) = true.
Proof.
  intros Hb Hp Hm Hd Hvt.
  pose proof (strptime_nonempty _ _ Hp) as Hne.
  pose proof (strptime_inv _ _ Hp) as (y0 & bm & bdd & Hv0 & _ & ->).
  cbn [month day] in Hm, Hd. subst bm bdd.
  destruct Hvt as (Hvd & _).
  apply valid_date_inv in Hvd as (HY & _ & _).
  unfold days_to_birthday. rewrite Hb, Hp, (proj2 (String.eqb_neq _ _) Hne).
  rewrite replace_year_feb29.
  destruct (is_leap (year today)) eqn:El.
  - rewrite (proj2 (Z.leb_le _ _)), (proj2 (Z.leb_le _ _)) by lia.
    cbn [andb]. cbv iota.
    destruct (dt_gt today (mkDT (year today) 2 29 0 0 0 0)).
    + rewrite replace_year_feb29, (is_leap_succ _ El). cbn [andb]. cbv iota.
      split; [by right|done].
    + split; [intros [=]|by intros [?|?]].
  - cbn [andb]. cbv iota. split; [by left|done].
Qed.

Lemma days_to_birthday_feb29_witness :
  days_to_birthday (born "2020-02-29") march_1_2024 = DaysValueError.
Proof.
  apply (days_to_birthday_feb29 (born "2020-02-29") (mkField 31 "2020-02-29")
           (mkDT 2020 2 29 0 0 0 0) march_1_2024); try reflexivity.
  - unfold valid_datetime, march_1_2024. simpl. split; [reflexivity|lia].
  - right. reflexivity.
Defined.

(** ** Identifiers after a restart, and records inserted twice *)

(** X22. Whatever dict was saved, the first insert into the loaded book
    receives the smallest integer from 1 upwards that is not a key of the
    loaded entries: the released ids are forgotten, gaps are found
    again by the search loop. *)
Theorem first_id_after_load d objects h l :
  let s := load_address_book (Pickle d objects) h in
  let rid := (add_record s.1 s.2 l).1.1 in
  1 ≤ rid ∧ (rid ∉ keys d) ∧ ∀ k, 1 ≤ k < rid → k ∈ keys d.
Proof.
  intros s rid. subst s rid. simpl.
  rewrite add_record_free_empty by done. simpl.
  destruct (advance_exits (mkBook d 1 ∅ None)) as (H1 & Hf & Hall).
  apply reserved_false in Hf as [Hk _]. simpl in *.
  split; [done|]. split; [done|]. intros k Hk'.
  apply Hall, reserved_true in Hk' as [?|Hin]; [done|]. simpl in Hin.
  set_solver.
Qed.

Lemma first_id_after_load_witness :
  (add_record reloaded.1 reloaded.2 3%nat).1.1 = 1
  ∧ (add_record reloaded.1 reloaded.2 3%nat).1.1 ∉ keys (data two_minus_first.1).
Proof.
  destruct (first_id_after_load (data two_minus_first.1) two_minus_first.2 bobs 3%nat)
    as (_ & Hnew & _).
  split; [reflexivity|exact Hnew].
Defined.

(** X23. When a record object that is already stored is inserted again
    (into a book whose [free_ids] is disjoint from its keys), it ends up
    under two keys while its [id] field holds only the newer one, so the
    older entry's key differs from the id of the record stored under
    it. *)
Theorem insert_twice_breaks_id b h l :
  free_disjoint b →
  let r1 := add_record b h l in
  let r2 := add_record r1.1.2 r1.2 l in
  (r1.1.1, l) ∈ data r2.1.2 ∧ (r2.1.1, l) ∈ data r2.1.2
  ∧ r2.1.1 ≠ r1.1.1
  ∧ rec_id (r2.2 l) = Some r2.1.1.
Proof.
  intros Hd r1 r2. subst r1 r2.
  pose proof (add_record_disjoint b h l Hd) as Hd1.
  destruct (add_record_effect b h l Hd) as (_ & Hdata1 & _).
  destruct (add_record_effect _ (add_record b h l).2 l Hd1)
    as (Hnew2 & Hdata2 & _ & Hid2 & _).
  split; [|split; [|split; [|done]]].
  - rewrite Hdata2, Hdata1, !elem_of_app. left. right. left.
  - rewrite Hdata2, elem_of_app. right. left.
  - intros Heq. apply Hnew2. rewrite Heq. apply add_record_id_stored.
Qed.

Lemma insert_twice_breaks_id_witness :
  let r1 := add_record new_book bobs 1%nat in
  let r2 := add_record r1.1.2 r1.2 1%nat in
  (1, 1%nat) ∈ data r2.1.2 ∧ rec_id (r2.2 1%nat) = Some 2.
Proof.
  intros r1 r2.
  destruct (insert_twice_breaks_id new_book bobs 1%nat new_book_disjoint)
    as (H1 & _ & _ & H2).
  split; [exact H1|exact H2].
Defined.

(** ** Deleting after a search by name *)



